(** * PolicyWalk reward inference (sirl/algorithms/inference_mcmc.py and
      sirl/algorithms/birl/iterative_birl.py)

    A shallow embedding of the PolicyWalk MCMC sampler: the grid-walk
    proposal, the Metropolis-Hastings acceptance ratio, the running mean and
    the burn-in bookkeeping.

    Numbers.  Python floats and numpy float64 scalars are idealised as real
    numbers ([R]); rounding is not modelled.  The IEEE special values that the
    program can produce from finite operands (a numpy division by zero, a
    power of a negative base) are kept, as the type [npfloat].  Python
    integers are [Z], list positions are [nat].

    Randomness.  Every random draw is an explicit argument: the caller of a
    model function supplies the values the generator would have returned. *)

From Stdlib Require Import Reals Lra Lia ZArith List Bool Arith.
Import ListNotations.

Local Open Scope R_scope.

(** ** Outcomes of a call *)

Inductive exn : Type :=
| ValueError
| ZeroDivisionError
| IndexError.

(** A call returns a value, raises, or is still inside a resampling loop
    when the supplied random draws are used up ([Spin]). *)
Inductive outcome (A : Type) : Type :=
| Ret (a : A)
| Raise (e : exn)
| Spin.

Arguments Ret {A} a.
Arguments Raise {A} e.
Arguments Spin {A}.

Definition bind {A B : Type} (m : outcome A) (k : A -> outcome B) : outcome B :=
  match m with
  | Ret a => k a
  | Raise e => Raise e
  | Spin => Spin
  end.

Notation "x <- m ;; k" := (bind m (fun x => k))
  (at level 61, m at next level, right associativity).

Definition returns {A : Type} (m : outcome A) : Prop := exists a, m = Ret a.

(** ** Comparisons and numpy scalars *)

Definition Rleb (x y : R) : bool := if Rle_dec x y then true else false.
Definition Rltb (x y : R) : bool := if Rlt_dec x y then true else false.

(** A numpy float64 result: a real number, an infinity or nan. *)
Inductive npfloat : Type :=
| Fin (x : R)
| Inf (positive : bool)
| NaN.

(** numpy's [/] on float64 scalars.  A zero divisor raises nothing (numpy
    only warns): the quotient is nan for 0/0 and an infinity otherwise.  Zero
    is unsigned here and stands for +0.0. *)
Definition np_div (x y : R) : npfloat :=
  if Req_dec_T y 0 then
    if Req_dec_T x 0 then NaN else Inf (Rltb 0 x)
  else Fin (x / y).

(** Python's [/] on two Python floats, which does raise. *)
Definition py_div (x y : R) : outcome R :=
  if Req_dec_T y 0 then Raise ZeroDivisionError else Ret (x / y).

(** The builtin [min(1, x)]: [x] when [x < 1] holds, else the first
    argument (so nan and +inf give 1). *)
Definition min1 (x : npfloat) : npfloat :=
  match x with
  | Fin v => if Rltb v 1 then Fin v else Fin 1
  | Inf true => Fin 1
  | Inf false => Inf false
  | NaN => Fin 1
  end.

Definition is_integer (a : R) : bool :=
  if Req_dec_T a (IZR (Zfloor a)) then true else false.

(** [x ** a] for a float exponent (C's pow): a negative base has a real
    power only at an integral exponent, and is nan elsewhere. *)
Definition np_pow (x : npfloat) (a : R) : npfloat :=
  if Req_dec_T a 0 then Fin 1 else
  match x with
  | Fin v =>
      if Rltb 0 v then Fin (Rpower v a)
      else if Req_dec_T v 0 then (if Rltb 0 a then Fin 0 else Inf true)
      else if is_integer a then Fin (powerRZ v (Zfloor a)) else NaN
  | Inf true => if Rltb 0 a then Inf true else Fin 0
  | Inf false =>
      if Rltb 0 a
      then Inf (negb (is_integer a && Z.odd (Zfloor a)))
      else Fin 0
  | NaN => NaN
  end.

(** [x > u] and [x <= y]; every comparison with nan is false. *)
Definition np_gt (x : npfloat) (u : R) : bool :=
  match x with
  | Fin v => Rltb u v
  | Inf s => s
  | NaN => false
  end.

Definition np_le (x y : npfloat) : bool :=
  match x, y with
  | NaN, _ | _, NaN => false
  | Inf false, _ => true
  | _, Inf true => true
  | Fin a, Fin b => Rleb a b
  | _, _ => false
  end.

(** [np.sum] of a sequence. *)
Definition np_sum (l : list R) : R := fold_left Rplus l 0.

(** [scipy.misc.logsumexp]: the maximum is taken first (and does not exist
    for an empty sequence: ValueError), then
    [log(sum(exp(a - a_max))) + a_max]. *)
Definition logsumexp (a : list R) : outcome R :=
  match a with
  | [] => Raise ValueError
  | x :: xs =>
      let a_max := fold_left Rmax xs x in
      Ret (ln (np_sum (map (fun v => exp (v - a_max)) a)) + a_max)
  end.

(** [int(x)] on a finite float: truncation towards zero. *)
Definition py_int (x : R) : Z := if Rle_dec 0 x then Zfloor x else Zceil x.

(** ** Vectors *)

Definition vec := list R.

Fixpoint set_nth (i : nat) (x : R) (v : vec) : vec :=
  match v, i with
  | [], _ => []
  | _ :: t, O => x :: t
  | y :: t, S j => y :: set_nth j x t
  end.

Definition in_unit (x : R) : bool := Rleb (-1) x && Rleb x 1.

Definition in_box (v : vec) : Prop := Forall (fun x => -1 <= x <= 1) v.

(** ** PolicyWalkProposal *)

Record PolicyWalkProposal : Type := {
  dim : nat;
  delta : R;
  bounded : bool
}.

(** One turn of the resampling loop draws [choice([-delta, delta])] and
    [randint(dim)]; [pick] is the generator's raw value, reduced into
    [0, dim). *)
Record draw : Type := { up_sign : bool; pick : nat }.

Definition step_of (P : PolicyWalkProposal) (dr : draw) : R :=
  if up_sign dr then delta P else - delta P.

(** The loop of [__call__] on the values of [new_loc]. *)
Fixpoint resample (P : PolicyWalkProposal) (new_loc : vec) (draws : list draw)
  : outcome vec :=
  match draws with
  | [] => Spin
  | dr :: rest =>
      let d := step_of P dr in
      match dim P with
      | O => Raise ValueError
      | S _ =>
          let i := (pick dr mod dim P)%nat in
          match nth_error new_loc i with
          | None => Raise IndexError
          | Some x =>
              if bounded P then
                if in_unit (x + d) then Ret (set_nth i (x + d) new_loc)
                else resample P new_loc rest
              else Ret (set_nth i (x + d) new_loc)
          end
      end
  end.

(** Arrays live in a store; a variable holds an address.  [np.array(loc)]
    allocates a copy. *)
Definition store := list vec.

Definition write (h : store) (a i : nat) (x : R) : store :=
  match nth_error h a with
  | Some v => firstn a h ++ set_nth i x v :: skipn (S a) h
  | None => h
  end.

Fixpoint call_loop (P : PolicyWalkProposal) (h : store) (new_loc : nat)
  (draws : list draw) : outcome store :=
  match draws with
  | [] => Spin
  | dr :: rest =>
      let d := step_of P dr in
      match dim P with
      | O => Raise ValueError
      | S _ =>
          let i := (pick dr mod dim P)%nat in
          match nth_error (nth new_loc h []) i with
          | None => Raise IndexError
          | Some x =>
              if bounded P then
                if in_unit (x + d) then Ret (write h new_loc i (x + d))
                else call_loop P h new_loc rest
              else Ret (write h new_loc i (x + d))
          end
      end
  end.

(** [PolicyWalkProposal.__call__(loc)]: the store after the call and the
    address returned. *)
Definition __call__ (P : PolicyWalkProposal) (h : store) (loc : nat)
  (draws : list draw) : outcome (store * nat) :=
  let new_loc := length h in
  let h1 := h ++ [nth loc h []] in
  h2 <- call_loop P h1 new_loc draws ;;
  Ret (h2, new_loc).

(** The same call on values, for callers that keep no alias. *)
Definition propose (P : PolicyWalkProposal) (loc : vec) (draws : list draw)
  : outcome vec :=
  resample P loc draws.

(** ** The sampler *)

(** [self.data]: the diagnostic lists, appended to across calls. *)
Record diagnostics : Type := {
  qloss : list R;
  trace : list vec;
  walk : list vec;
  accept_ratios : list Z;
  iter_rewards : list vec
}.

(** The attributes set by [TBIRLPolicyWalk.__init__]. *)
Record TBIRLPolicyWalk : Type := {
  _delta : R;
  _rmax : R;
  _mcmc_iter : Z;
  _burn : R;
  _tempered : bool;
  _beta : R;
  data : diagnostics
}.

Definition with_data (self : TBIRLPolicyWalk) (d : diagnostics) : TBIRLPolicyWalk :=
  {| _delta := _delta self; _rmax := _rmax self; _mcmc_iter := _mcmc_iter self;
     _burn := _burn self; _tempered := _tempered self; _beta := _beta self;
     data := d |}.

(** The random values one call of [_policy_walk] consumes: the raw
    [randrange] value per reward component of the initial draw, and per step
    the draws of the proposal loop and the [uniform(0, 1)] value. *)
Record randomness : Type := {
  init_picks : nat -> nat;
  step_draws : Z -> list draw;
  step_u : Z -> R
}.

Fixpoint mapM {A B : Type} (f : A -> outcome B) (l : list A) : outcome (list B) :=
  match l with
  | [] => Ret []
  | a :: t => b <- f a ;; bs <- mapM f t ;; Ret (b :: bs)
  end.

(** [range(n)] and [range(1, n + 1)] for a Python integer [n]. *)
Definition range (n : Z) : list nat := seq 0 (Z.to_nat n).
Definition range1 (n : Z) : list Z := map Z.of_nat (seq 1 (Z.to_nat n)).

(** [randrange(n)]: ValueError on an empty range. *)
Definition randrange (n : Z) (raw : nat) : outcome nat :=
  if (n <=? 0)%Z then Raise ValueError else Ret (raw mod Z.to_nat n)%nat.

(** [max] of a Python list. *)
Definition py_max (l : list R) : outcome R :=
  match l with
  | [] => Raise ValueError
  | x :: xs => Ret (fold_left Rmax xs x)
  end.

(** [5 + step / 50.0] *)
Definition _cooling (step : Z) : R := 5 + IZR step / 50.

(** [_iterative_reward_mean]: the comprehension over [zip(r_mean, r_new)].
    The loop calls it with [step >= 1] only, so the divisions do not raise. *)
Definition _iterative_reward_mean (r_mean r_new : vec) (step : Z) : vec :=
  map (fun mr => ((IZR step - 1) / IZR step) * fst mr + 1 / IZR step * snd mr)
      (combine r_mean r_new).

Section Sampler.

(** What the sampler gets from its base class [TBIRL] and from the prior
    object, none of which is part of these modules: the trajectory
    qualities, [prior.log_p], the prior called as a function, and the
    reward dimension of the MDP. *)
Variable trajs : Type.
Variable _expert_trajectory_quality : vec -> list R.
Variable _generated_trajectory_quality : vec -> trajs -> list (list R).
Variable log_p : vec -> list R.
Variable _prior : vec -> list R.
Variable rdim : nat.

(** The three nested loops of [_mh_ratio] that fill [z] by [append]. *)
Definition gaps (beta : R) (QE : list R) (QPi : list (list R)) : list R :=
  fold_left (fun z q_e =>
    fold_left (fun z QP_i =>
      fold_left (fun z q_i => z ++ [beta * (q_i - q_e)]) QP_i z)
    QPi z)
  QE [].

Definition _mh_ratio (self : TBIRLPolicyWalk) (r r_new : vec)
  (QE QE_new : list R) (QPi QPi_new : list (list R)) : outcome npfloat :=
  let p_new := np_sum (log_p r_new) in
  let p := np_sum (log_p r) in
  let z := gaps (_beta self) QE QPi in
  l <- logsumexp z ;;
  let lk := - l in
  let z_new := gaps (_beta self) QE_new QPi_new in
  l_new <- logsumexp z_new ;;
  let lk_new := - l_new in
  Ret (np_div (lk_new + p_new) (lk + p)).

(** [initialize_reward] of inference_mcmc.py. *)
Definition initialize_reward (self : TBIRLPolicyWalk) (picks : nat -> nat)
  : outcome vec :=
  q <- py_div (_rmax self) (_delta self) ;;
  let n := py_int (q + 1) in
  let loc := map (fun i => - _rmax self + INR i * _delta self) (range n) in
  r <- mapM (fun j =>
         k <- randrange n (picks j) ;;
         match nth_error loc k with
         | Some x => Ret x
         | None => Raise IndexError
         end) (seq 0 rdim) ;;
  if _tempered self then
    mapM (fun _ => py_max (_prior r)) (seq 0 rdim)
  else Ret r.

(** The local variables of [_policy_walk] during the loop. *)
Record frame : Type := {
  r_mean : vec;
  p_dist : PolicyWalkProposal;
  QE : list R;
  QPi : list (list R);
  burn_point : Z;
  fdata : diagnostics
}.

(** What one step did: the arguments and the result of its [_mh_ratio]
    call and whether the sample was accepted.  This log is not program
    state; it only lets statements speak about the calls made. *)
Record event : Type := {
  ev_step : Z;
  ev_r : vec;
  ev_r_new : vec;
  ev_QE : list R;
  ev_QPi : list (list R);
  ev_ratio : npfloat;
  ev_accepted : bool
}.

Definition accept_probability (self : TBIRLPolicyWalk) (mh_ratio : npfloat)
  (step : Z) : npfloat :=
  if _tempered self then np_pow (min1 mh_ratio) (_cooling step)
  else min1 mh_ratio.

Definition accept (st : frame) (r_new : vec) (step : Z) : frame :=
  let d := fdata st in
  {| r_mean := _iterative_reward_mean (r_mean st) r_new step;
     p_dist := p_dist st; QE := QE st; QPi := QPi st;
     burn_point := burn_point st;
     fdata := {| qloss := qloss d; trace := trace d; walk := walk d;
                 accept_ratios := accept_ratios d ++ [1%Z];
                 iter_rewards := iter_rewards d |} |}.

Definition keep_sample (st : frame) (r_new : vec) : frame :=
  let d := fdata st in
  {| r_mean := r_mean st;
     p_dist := p_dist st; QE := QE st; QPi := QPi st;
     burn_point := burn_point st;
     fdata := {| qloss := qloss d; trace := trace d ++ [r_mean st];
                 walk := walk d ++ [r_new];
                 accept_ratios := accept_ratios d;
                 iter_rewards := iter_rewards d |} |}.

(** The body of the [for step in range(1, mcmc_iter + 1)] loop. *)
Definition body (self : TBIRLPolicyWalk) (g_trajs : trajs) (rnd : randomness)
  (st : frame) (step : Z) : outcome (frame * event) :=
  r_new <- propose (p_dist st) (r_mean st) (step_draws rnd step) ;;
  let QE_new := _expert_trajectory_quality r_new in
  let QPi_new := _generated_trajectory_quality r_new g_trajs in
  mh_ratio <- _mh_ratio self (r_mean st) r_new (QE st) QE_new (QPi st) QPi_new ;;
  let accepted := np_gt (accept_probability self mh_ratio step) (step_u rnd step) in
  let st1 := if accepted then accept st r_new step else st in
  let st2 := if (step >? burn_point st1)%Z then keep_sample st1 r_new else st1 in
  Ret (st2, {| ev_step := step; ev_r := r_mean st; ev_r_new := r_new;
               ev_QE := QE st; ev_QPi := QPi st; ev_ratio := mh_ratio;
               ev_accepted := accepted |}).

Fixpoint loop (self : TBIRLPolicyWalk) (g_trajs : trajs) (rnd : randomness)
  (steps : list Z) (st : frame) : outcome (frame * list event) :=
  match steps with
  | [] => Ret (st, [])
  | step :: rest =>
      se <- body self g_trajs rnd st step ;;
      sl <- loop self g_trajs rnd rest (fst se) ;;
      Ret (fst sl, snd se :: snd sl)
  end.

(** [sum([sum(Qe - Qp for Qe, Qp in zip(QE, Q_i)) for Q_i in QPi])] *)
Definition qloss_of (QE : list R) (QPi : list (list R)) : R :=
  fold_left Rplus
    (map (fun Q_i => fold_left Rplus
                       (map (fun ep => fst ep - snd ep) (combine QE Q_i)) 0)
         QPi) 0.

Definition burn_threshold (self : TBIRLPolicyWalk) : Z :=
  py_int (IZR (_mcmc_iter self) * _burn self / 100).

(** The statements of [_policy_walk] before its loop. *)
Definition enter (self : TBIRLPolicyWalk) (g_trajs : trajs) (rnd : randomness)
  : outcome frame :=
  r <- initialize_reward self (init_picks rnd) ;;
  let QE := _expert_trajectory_quality r in
  let QPi := _generated_trajectory_quality r g_trajs in
  let ql := qloss_of QE QPi in
  let d := data self in
  Ret {| r_mean := r;
         p_dist := {| dim := length r; delta := _delta self; bounded := true |};
         QE := QE; QPi := QPi;
         burn_point := burn_threshold self;
         fdata := {| qloss := qloss d ++ [ql]; trace := trace d;
                     walk := walk d; accept_ratios := accept_ratios d;
                     iter_rewards := iter_rewards d |} |}.

(** One call with its log: the final frame and the events of its steps. *)
Definition walk_run (self : TBIRLPolicyWalk) (g_trajs : trajs) (rnd : randomness)
  : outcome (frame * list event) :=
  st0 <- enter self g_trajs rnd ;;
  loop self g_trajs rnd (range1 (_mcmc_iter self)) st0.

(** [_policy_walk]: the reward returned and the object afterwards. *)
Definition _policy_walk (self : TBIRLPolicyWalk) (g_trajs : trajs)
  (rnd : randomness) : outcome (vec * TBIRLPolicyWalk) :=
  sl <- walk_run self g_trajs rnd ;;
  let st := fst sl in
  let d := fdata st in
  Ret (r_mean st,
       with_data self
         {| qloss := qloss d; trace := trace d; walk := walk d;
            accept_ratios := accept_ratios d;
            iter_rewards := iter_rewards d ++ [r_mean st] |}).

End Sampler.

(** [initialize_reward] of birl/iterative_birl.py: one
    [np.random.uniform(-rmax, rmax)] per component, computed by numpy as
    [low + (high - low) * u] from a raw [u] in [0, 1). *)
Module IterativeBirl.

Definition np_uniform (low high u : R) : R := low + (high - low) * u.

Definition initialize_reward (_prior : vec -> list R) (rdim : nat)
  (self : TBIRLPolicyWalk) (us : nat -> R) : outcome vec :=
  let reward :=
    map (fun j => np_uniform (- _rmax self) (_rmax self) (us j)) (seq 0 rdim) in
  if _tempered self then
    mapM (fun _ => py_max (_prior reward)) (seq 0 rdim)
  else Ret reward.

End IterativeBirl.

(** ** Chained proposals *)

(** [loc = p_dist(loc)] repeated, one list of draws per call. *)
Fixpoint chain (P : PolicyWalkProposal) (loc : vec) (calls : list (list draw))
  : outcome vec :=
  match calls with
  | [] => Ret loc
  | draws :: rest => v <- propose P loc draws ;; chain P v rest
  end.

(** A draw that the bounded test lets through at [loc]. *)
Definition passes (P : PolicyWalkProposal) (loc : vec) (dr : draw) : bool :=
  match nth_error loc (pick dr mod dim P) with
  | Some x => in_unit (x + step_of P dr)
  | None => false
  end.

(** ** The flat lists of the specification *)

(** Every expert quality against every generated quality, expert-major. *)
Definition cross_gaps (beta : R) (QE : list R) (QPi : list (list R)) : list R :=
  flat_map (fun q_e => map (fun q_i => beta * (q_i - q_e)) (concat QPi)) QE.

(** Only the pairs of an expert start-state with the generated trajectories
    at that start-state: [QPi] holds one inner list per start-state,
    aligned with [QE]. *)
Definition matched_gaps (beta : R) (QE : list R) (QPi : list (list R)) : list R :=
  concat (map (fun eq => map (fun q_g => beta * (q_g - fst eq)) (snd eq))
              (combine QE QPi)).

(** The ratio built from two given flat lists. *)
Definition ratio_of (p p_new : R) (z z_new : list R) : outcome npfloat :=
  l <- logsumexp z ;;
  l_new <- logsumexp z_new ;;
  Ret (np_div (- l_new + p_new) (- l + p)).

(** ** Means *)




(** A small world to run the sampler in: one start-state, one generated
    trajectory, qualities 0 whatever the reward, and a prior of constant
    log-density [c] per component. *)
Definition flat_quality (_ : vec) : list R := [0].
Definition flat_generated (_ : vec) (_ : unit) : list (list R) := [[0]].
Definition const_log_p (c : R) (r : vec) : list R := map (fun _ => c) r.

Definition no_data : diagnostics :=
  {| qloss := []; trace := []; walk := []; accept_ratios := [];
     iter_rewards := [] |}.

Definition sampler (step_size burn : R) (mcmc_iter : Z) (cooling : bool)
  : TBIRLPolicyWalk :=
  {| _delta := step_size; _rmax := 1; _mcmc_iter := mcmc_iter; _burn := burn;
     _tempered := cooling; _beta := 1; data := no_data |}.

(** Random values for a run in that world: the initial draw picks grid
    point 2, every proposal tries to raise component 0 first and to lower
    it next, and every uniform draw is 0. *)
Definition steady_draws : randomness :=
  {| init_picks := fun _ => 2%nat;
     step_draws := fun _ => [{| up_sign := true; pick := 0 |};
                             {| up_sign := false; pick := 0 |}];
     step_u := fun _ => 0 |}.

(** The frames of a run in that world with step size 1/2. *)
Definition steady_frame (st : frame) : Prop :=
  p_dist st = {| dim := 1; delta := 1 / 2; bounded := true |} /\
  (exists x, r_mean st = [x] /\ -1 <= x <= 1) /\
  QE st = [0] /\ QPi st = [[0]].

(** ** The public entry point and the log of a run *)

(** [TBIRLPolicyWalk.find_next_reward] hands its argument to
    [_policy_walk]. *)
Definition find_next_reward (trajs : Type)
  (_expert_trajectory_quality : vec -> list R)
  (_generated_trajectory_quality : vec -> trajs -> list (list R))
  (log_p _prior : vec -> list R) (rdim : nat)
  (self : TBIRLPolicyWalk) (g_trajs : trajs) (rnd : randomness)
  : outcome (vec * TBIRLPolicyWalk) :=
  _policy_walk trajs _expert_trajectory_quality _generated_trajectory_quality
               log_p _prior rdim self g_trajs rnd.

(** The running mean a step leaves behind. *)
Definition ev_r_after (ev : event) : vec :=
  if ev_accepted ev
  then _iterative_reward_mean (ev_r ev) (ev_r_new ev) (ev_step ev)
  else ev_r ev.

(** The steps past the burn threshold. *)
Definition kept (burn_point : Z) (evs : list event) : list event :=
  filter (fun ev => (ev_step ev >? burn_point)%Z) evs.

(** Each step starts from the running mean the step before left. *)
Fixpoint threaded (m : vec) (evs : list event) : Prop :=
  match evs with
  | [] => True
  | ev :: rest => ev_r ev = m /\ threaded (ev_r_after ev) rest
  end.

Definition final_mean (m : vec) (evs : list event) : vec :=
  fold_left (fun _ ev => ev_r_after ev) evs m.

(** ** TBIRLOpt (birl/iterative_birl.py) *)

Module TBIRLOpt.

(** The attributes set by [TBIRLOpt.__init__]; [g_trajs] is the attribute
    [find_next_reward] sets before the optimiser calls the objective. *)
Record t (trajs : Type) : Type := {
  _rmax : R;
  _bounds : list (R * R);
  _beta : R;
  g_trajs : trajs;
  qloss : list R
}.

Arguments _rmax {trajs} _.
Arguments _bounds {trajs} _.
Arguments _beta {trajs} _.
Arguments g_trajs {trajs} _.
Arguments qloss {trajs} _.

(** [__init__]: [bounds=None] becomes one pair [(-rmax, rmax)] per reward
    dimension. *)
Definition __init__ {trajs : Type} (dim : nat) (beta reward_max : R)
  (bounds : option (list (R * R))) (g : trajs) : t trajs :=
  {| _rmax := reward_max;
     _bounds := match bounds with
                | Some b => b
                | None => map (fun _ => (- reward_max, reward_max)) (seq 0 dim)
                end;
     _beta := beta;
     g_trajs := g;
     qloss := [] |}.

(** [initialize_reward]: one [np.random.uniform(-rmax, rmax)] per
    dimension. *)
Definition initialize_reward {trajs : Type} (rdim : nat) (self : t trajs)
  (us : nat -> R) : vec :=
  map (fun j => IterativeBirl.np_uniform (- _rmax self) (_rmax self) (us j))
      (seq 0 rdim).

(** [_neg_loglk]: the loss is appended to [data['qloss']] before
    logsumexp is called, so the object changes even when the call raises. *)
Definition _neg_loglk {trajs : Type}
  (_expert_trajectory_quality : vec -> list R)
  (_generated_trajectory_quality : vec -> trajs -> list (list R))
  (_loss : list R -> list (list R) -> R)
  (self : t trajs) (r : vec) : t trajs * outcome R :=
  let QE := _expert_trajectory_quality r in
  let QPi := _generated_trajectory_quality r (g_trajs self) in
  let self1 := {| _rmax := _rmax self; _bounds := _bounds self;
                  _beta := _beta self; g_trajs := g_trajs self;
                  qloss := qloss self ++ [_loss QE QPi] |} in
  (self1, logsumexp (gaps (_beta self) QE QPi)).

End TBIRLOpt.

(** A second world, in which every proposal is rejected: the prior has
    log-density [x - 1] per component and every uniform draw is 3/4. *)
Definition linear_log_p (r : vec) : list R := map (fun x => x - 1) r.

Definition strict_draws : randomness :=
  {| init_picks := fun _ => 2%nat;
     step_draws := fun _ => [{| up_sign := true; pick := 0 |};
                             {| up_sign := false; pick := 0 |}];
     step_u := fun _ => 3 / 4 |}.

Definition strict_frame (st : frame) : Prop :=
  p_dist st = {| dim := 1; delta := 1 / 2; bounded := true |} /\
  (exists x, r_mean st = [x] /\ x = 0) /\
  QE st = [0] /\ QPi st = [[0]].

(** The same sampler with cooling switched off. *)
Definition untempered (self : TBIRLPolicyWalk) : TBIRLPolicyWalk :=
  {| _delta := _delta self; _rmax := _rmax self; _mcmc_iter := _mcmc_iter self;
     _burn := _burn self; _tempered := false; _beta := _beta self;
     data := data self |}.

(** * Properties *)

(** ** Comparisons *)

Lemma Rleb_true x y : Rleb x y = true <-> x <= y.
Proof. unfold Rleb; destruct (Rle_dec x y); split; intros; try easy; lra. Qed.

Lemma Rleb_false x y : Rleb x y = false <-> y < x.
Proof. unfold Rleb; destruct (Rle_dec x y); split; intros; try easy; lra. Qed.

Lemma Rltb_true x y : Rltb x y = true <-> x < y.
Proof. unfold Rltb; destruct (Rlt_dec x y); split; intros; try easy; lra. Qed.

Lemma Rltb_false x y : Rltb x y = false <-> y <= x.
Proof. unfold Rltb; destruct (Rlt_dec x y); split; intros; try easy; lra. Qed.

Lemma in_unit_true x : in_unit x = true <-> -1 <= x <= 1.
Proof.
  unfold in_unit. rewrite andb_true_iff, !Rleb_true. tauto.
Qed.

Lemma in_unit_false x : in_unit x = false <-> x < -1 \/ 1 < x.
Proof.
  unfold in_unit. rewrite andb_false_iff, !Rleb_false. tauto.
Qed.

(** Decide the real comparisons of a closed goal. *)
Ltac rdecide :=
  repeat match goal with
  | |- context [Rle_dec ?a ?b] => destruct (Rle_dec a b); try lra
  | |- context [Rlt_dec ?a ?b] => destruct (Rlt_dec a b); try lra
  | |- context [Req_dec_T ?a ?b] => destruct (Req_dec_T a b); try lra
  end.

(** ** Vectors *)

Lemma set_nth_length i x v : length (set_nth i x v) = length v.
Proof.
  revert i; induction v as [|y t IH]; intros [|j]; simpl; auto.
Qed.

Lemma nth_set_nth i j x v :
  (i < length v)%nat ->
  nth j (set_nth i x v) 0 = if Nat.eqb j i then x else nth j v 0.
Proof.
  revert i j; induction v as [|y t IH]; intros i j Hi; simpl in Hi; [lia|].
  destruct i as [|i], j as [|j]; simpl; auto.
  apply IH; lia.
Qed.

Lemma set_nth_in_box i x v :
  in_box v -> -1 <= x <= 1 -> in_box (set_nth i x v).
Proof.
  unfold in_box. intros Hv Hx. revert i.
  induction Hv as [|y t Hy Ht IH]; intros [|j]; simpl; constructor; auto.
Qed.

Lemma nth_error_nth_0 (v : vec) i x : nth_error v i = Some x -> nth i v 0 = x.
Proof. intros H. now apply nth_error_nth. Qed.

(** ** The resampling loop *)

(** What a returning loop did: one draw passed the test, and its
    perturbation is the only change. *)
Lemma resample_ret P loc draws v :
  resample P loc draws = Ret v ->
  exists dr x,
    In dr draws /\
    nth_error loc (pick dr mod dim P) = Some x /\
    (bounded P = true -> in_unit (x + step_of P dr) = true) /\
    v = set_nth (pick dr mod dim P) (x + step_of P dr) loc.
Proof.
  induction draws as [|dr rest IH]; simpl; [discriminate|].
  destruct (dim P) eqn:Hd; [discriminate|]. rewrite <- Hd in IH |- *.
  destruct (nth_error loc (pick dr mod dim P)) as [x|] eqn:Hx; [|discriminate].
  destruct (bounded P) eqn:Hb.
  - destruct (in_unit (x + step_of P dr)) eqn:Hu.
    + intros H; inversion H; subst. exists dr, x. repeat split; auto.
    + intros H. destruct (IH H) as (dr' & x' & Hin & Hn & Hu' & Hv).
      exists dr', x'. repeat split; auto.
  - intros H; inversion H; subst. exists dr, x. repeat split; auto.
    discriminate.
Qed.

(** The bounded loop returns exactly when a supplied draw passes. *)
Lemma resample_returns_iff P loc draws :
  bounded P = true -> dim P = length loc -> loc <> [] ->
  (returns (resample P loc draws) <-> existsb (passes P loc) draws = true).
Proof.
  intros Hb Hd Hne.
  assert (Hpos : (0 < dim P)%nat).
  { rewrite Hd. destruct loc; [congruence | simpl; lia]. }
  induction draws as [|dr rest IH]; simpl.
  - split; [intros [v Hv]; discriminate | discriminate].
  - destruct (dim P) eqn:Hdim; [lia|]. rewrite <- Hdim.
    unfold passes at 1.
    destruct (nth_error loc (pick dr mod dim P)) as [x|] eqn:Hx.
    + rewrite Hb. destruct (in_unit (x + step_of P dr)); simpl.
      * split; auto. intros _. eexists; reflexivity.
      * exact IH.
    + exfalso. apply nth_error_None in Hx.
      pose proof (Nat.mod_upper_bound (pick dr) (dim P)). lia.
Qed.

Lemma propose_in_box P loc draws v :
  bounded P = true -> in_box loc -> propose P loc draws = Ret v -> in_box v.
Proof.
  intros Hb Hbox H. apply resample_ret in H.
  destruct H as (dr & x & _ & _ & Hu & ->).
  apply set_nth_in_box; auto. apply in_unit_true; auto.
Qed.

(** C2: a bounded proposal applied to a vector of the unit box returns a
    vector of the unit box, for one call and for any finite chain of calls
    each fed the result of the one before. *)
Theorem bounded_proposal_stays_in_unit_box (P : PolicyWalkProposal)
  (loc : vec) (calls : list (list draw)) (v : vec) :
  bounded P = true -> in_box loc -> chain P loc calls = Ret v -> in_box v.
Proof.
  intros Hb. revert loc.
  induction calls as [|draws rest IH]; simpl; intros loc Hbox H.
  - now inversion H; subst.
  - destruct (propose P loc draws) as [w| |] eqn:Hw; simpl in H; try discriminate.
    apply (IH w); auto. eapply propose_in_box; eauto.
Qed.

Lemma resample_hit P loc dr rest x :
  (0 < dim P)%nat ->
  nth_error loc (pick dr mod dim P) = Some x ->
  (bounded P = true -> -1 <= x + step_of P dr <= 1) ->
  resample P loc (dr :: rest)
  = Ret (set_nth (pick dr mod dim P) (x + step_of P dr) loc).
Proof.
  intros Hpos Hx Hu. simpl.
  destruct (dim P) eqn:Hd; [lia|]. rewrite <- Hd in Hx |- *. rewrite Hx.
  destruct (bounded P); auto.
  now rewrite (proj2 (in_unit_true _) (Hu eq_refl)).
Qed.

Lemma resample_miss P loc dr rest :
  (0 < dim P)%nat -> bounded P = true -> passes P loc dr = false ->
  (pick dr mod dim P < length loc)%nat ->
  resample P loc (dr :: rest) = resample P loc rest.
Proof.
  intros Hpos Hb Hp Hlen. simpl. unfold passes in Hp.
  destruct (dim P) eqn:Hd; [lia|]. rewrite <- Hd in Hp, Hlen |- *.
  destruct (nth_error loc (pick dr mod dim P)) as [x|] eqn:Hx.
  - now rewrite Hb, Hp.
  - apply nth_error_None in Hx. lia.
Qed.

Lemma resample_spin P loc draws :
  bounded P = true -> dim P = length loc -> loc <> [] ->
  existsb (passes P loc) draws = false -> resample P loc draws = Spin.
Proof.
  intros Hb Hd Hne.
  assert (Hpos : (0 < dim P)%nat).
  { rewrite Hd. destruct loc; [congruence | simpl; lia]. }
  induction draws as [|dr rest IH]; auto.
  cbn [existsb]. rewrite orb_false_iff. intros [Hp Hrest].
  rewrite resample_miss; auto.
  rewrite <- Hd. now apply Nat.mod_upper_bound, Nat.neq_0_lt_0.
Qed.

Example chain_two_half_steps :
  chain {| dim := 1; delta := 1 / 2; bounded := true |} [0]
        [[{| up_sign := true; pick := 0 |}]; [{| up_sign := true; pick := 0 |}]]
  = Ret [0 + 1 / 2 + 1 / 2].
Proof.
  unfold chain, propose.
  rewrite (resample_hit _ _ _ _ 0); cbn; try lia; try reflexivity; [|intros _; lra].
  rewrite (proj2 (in_unit_true _)) by lra. reflexivity.
Qed.

Lemma bounded_proposal_stays_in_unit_box_witness : in_box [0 + 1 / 2 + 1 / 2].
Proof.
  apply (bounded_proposal_stays_in_unit_box
           {| dim := 1; delta := 1 / 2; bounded := true |} [0]
           [[{| up_sign := true; pick := 0 |}]; [{| up_sign := true; pick := 0 |}]]).
  - reflexivity.
  - repeat constructor; lra.
  - exact chain_two_half_steps.
Defined.

(** A step of at most 1 always leaves one direction open at the first
    coordinate. *)
Lemma some_draw_passes P loc :
  0 < delta P <= 1 -> dim P = length loc -> loc <> [] -> in_box loc ->
  exists dr, passes P loc dr = true.
Proof.
  intros Hdelta Hd Hne Hbox.
  destruct loc as [|x t]; [congruence|].
  inversion Hbox as [|? ? Hx _]; subst.
  exists {| up_sign := Rleb x 0; pick := 0 |}.
  unfold passes, step_of; cbn [pick up_sign].
  rewrite Hd; cbn [length]. rewrite Nat.Div0.mod_0_l. cbn [nth_error].
  apply in_unit_true.
  destruct (Rleb x 0) eqn:Hs.
  - apply Rleb_true in Hs. lra.
  - apply Rleb_false in Hs. lra.
Qed.

(** C7 (amended): with a step [0 < delta <= 1] a bounded call on a
    non-empty vector of the unit box always has a draw that passes the
    bound test; the loop returns a vector of the unit box as soon as the
    draws supplied contain a passing one, and keeps resampling as long as
    they do not. *)
Theorem bounded_resampling_ends_at_first_passing_draw
  (P : PolicyWalkProposal) (loc : vec) :
  bounded P = true -> 0 < delta P <= 1 ->
  dim P = length loc -> loc <> [] -> in_box loc ->
  (exists dr, passes P loc dr = true) /\
  (forall draws, existsb (passes P loc) draws = true ->
     exists v, propose P loc draws = Ret v /\ in_box v) /\
  (forall draws, existsb (passes P loc) draws = false ->
     propose P loc draws = Spin).
Proof.
  intros Hb Hdelta Hd Hne Hbox. split; [|split].
  - now apply some_draw_passes.
  - intros draws Hex.
    apply (resample_returns_iff P loc draws Hb Hd Hne) in Hex.
    destruct Hex as [v Hv]. exists v. split; auto.
    eapply propose_in_box; eauto.
  - intros draws Hex. now apply resample_spin.
Qed.

Lemma bounded_resampling_ends_at_first_passing_draw_witness :
  (exists dr, passes {| dim := 1; delta := 1; bounded := true |} [1] dr = true) /\
  (forall draws,
     existsb (passes {| dim := 1; delta := 1; bounded := true |} [1]) draws = true ->
     exists v, propose {| dim := 1; delta := 1; bounded := true |} [1] draws = Ret v
               /\ in_box v) /\
  (forall draws,
     existsb (passes {| dim := 1; delta := 1; bounded := true |} [1]) draws = false ->
     propose {| dim := 1; delta := 1; bounded := true |} [1] draws = Spin).
Proof.
  apply (bounded_resampling_ends_at_first_passing_draw
           {| dim := 1; delta := 1; bounded := true |} [1]).
  - reflexivity.
  - simpl; lra.
  - reflexivity.
  - discriminate.
  - repeat constructor; lra.
Defined.

(** C7 as stated fails: with [delta = 3/2] and the input [[0]], which lies
    in the unit box, both perturbations leave the box, and no sequence of
    draws makes the call return. *)
Lemma oversized_step_never_returns :
  0 < 3 / 2 /\ in_box [0] /\
  ~ (exists draws,
       returns (propose {| dim := 1; delta := 3 / 2; bounded := true |} [0] draws)).
Proof.
  split; [lra|]. split; [repeat constructor; lra|].
  intros [draws [v Hv]].
  assert (Hs : propose {| dim := 1; delta := 3 / 2; bounded := true |} [0] draws = Spin).
  { apply resample_spin; try reflexivity; try discriminate.
    clear. induction draws as [|dr rest IH]; auto.
    cbn [existsb]. rewrite IH, orb_false_r.
    unfold passes; cbn [dim]. rewrite Nat.mod_1_r. cbn [nth_error].
    apply in_unit_false. unfold step_of; cbn [delta].
    destruct (up_sign dr); lra. }
  congruence.
Qed.

(** ** The call on the store *)

Lemma write_fresh (h : store) (v : vec) i x :
  write (h ++ [v]) (length h) i x = h ++ [set_nth i x v].
Proof.
  unfold write.
  rewrite nth_error_app2, Nat.sub_diag by lia. cbn [nth_error].
  rewrite firstn_app, firstn_all, Nat.sub_diag. cbn [firstn].
  rewrite app_nil_r. f_equal. f_equal.
  rewrite skipn_all2; auto. rewrite length_app; simpl; lia.
Qed.

Lemma nth_fresh (h : store) (v : vec) : nth (length h) (h ++ [v]) [] = v.
Proof. rewrite app_nth2, Nat.sub_diag by lia. reflexivity. Qed.

(** The loop on the freshly allocated copy is the loop on values. *)
Lemma call_loop_resample P (h : store) (v : vec) draws :
  call_loop P (h ++ [v]) (length h) draws
  = (w <- resample P v draws ;; Ret (h ++ [w])).
Proof.
  induction draws as [|dr rest IH]; simpl; auto.
  destruct (dim P) eqn:Hd; auto. rewrite <- Hd.
  rewrite nth_fresh.
  destruct (nth_error v (pick dr mod dim P)) as [x|]; auto.
  rewrite write_fresh.
  destruct (bounded P); auto.
  destruct (in_unit (x + step_of P dr)); auto.
Qed.

Lemma call_propose P (h : store) loc draws :
  __call__ P h loc draws
  = (w <- propose P (nth loc h []) draws ;; Ret (h ++ [w], length h)).
Proof.
  unfold __call__, propose. rewrite call_loop_resample.
  destruct (resample P (nth loc h []) draws); reflexivity.
Qed.

(** The frame of a returning call: it hands back a newly allocated array;
    no array that existed before the call, the argument included, is
    modified; and the new array equals the argument except at one position,
    where it differs by exactly [+delta] or [-delta]. *)
Theorem call_perturbs_one_component_of_a_fresh_copy
  (P : PolicyWalkProposal) (h h' : store) (loc a : nat) (draws : list draw) :
  delta P <> 0 ->
  __call__ P h loc draws = Ret (h', a) ->
  a = length h /\ length h' = S (length h) /\
  (forall b, (b < length h)%nat -> nth b h' [] = nth b h []) /\
  exists i d,
    (d = delta P \/ d = - delta P) /\
    (i < length (nth loc h []))%nat /\
    length (nth a h' []) = length (nth loc h []) /\
    nth i (nth a h' []) 0 <> nth i (nth loc h []) 0 /\
    forall j, nth j (nth a h' []) 0
              = if Nat.eqb j i then nth j (nth loc h []) 0 + d
                else nth j (nth loc h []) 0.
Proof.
  intros Hdelta. rewrite call_propose. unfold propose.
  destruct (resample P (nth loc h []) draws) as [w| |] eqn:Hw; simpl; try discriminate.
  intros H; inversion H; subst h' a; clear H.
  apply resample_ret in Hw.
  destruct Hw as (dr & x & _ & Hx & _ & ->).
  assert (Hi : (pick dr mod dim P < length (nth loc h []))%nat).
  { apply nth_error_Some. congruence. }
  apply nth_error_nth_0 in Hx.
  split; [reflexivity|]. split; [rewrite length_app; simpl; lia|].
  split; [intros b Hb; now rewrite app_nth1|].
  exists (pick dr mod dim P)%nat, (step_of P dr).
  rewrite nth_fresh, set_nth_length.
  assert (Hd : step_of P dr = delta P \/ step_of P dr = - delta P).
  { unfold step_of; destruct (up_sign dr); auto. }
  repeat split; auto.
  - rewrite nth_set_nth, Nat.eqb_refl, Hx by auto. destruct Hd; lra.
  - intros j. rewrite nth_set_nth by auto.
    destruct (Nat.eqb j (pick dr mod dim P)) eqn:E; auto.
    apply Nat.eqb_eq in E. subst j. now rewrite Hx.
Qed.

Lemma call_perturbs_one_component_of_a_fresh_copy_witness :
  1%nat = length ([[0; 0]] : store) /\
  length ([[0; 0]; [0; 0 + 1 / 2]] : store) = 2%nat.
Proof.
  pose proof (call_perturbs_one_component_of_a_fresh_copy
                {| dim := 2; delta := 1 / 2; bounded := true |}
                [[0; 0]] [[0; 0]; [0; 0 + 1 / 2]] 0 1
                [{| up_sign := true; pick := 1 |}]) as H.
  assert (Hd : delta {| dim := 2; delta := 1 / 2; bounded := true |} <> 0)
    by (simpl; lra).
  assert (Hrun : __call__ {| dim := 2; delta := 1 / 2; bounded := true |}
                   [[0; 0]] 0 [{| up_sign := true; pick := 1 |}]
                 = Ret ([[0; 0]; [0; 0 + 1 / 2]], 1%nat)).
  { rewrite call_propose. unfold propose. cbn [nth].
    rewrite (resample_hit _ _ _ _ 0); cbn; try lia; try reflexivity.
    intros _; lra. }
  destruct (H Hd Hrun) as (H1 & H2 & _). split; assumption.
Defined.

(** ** The acceptance ratio *)

Lemma fold_append_map {A : Type} (f : A -> R) (l : list A) (z : list R) :
  fold_left (fun z a => z ++ [f a]) l z = z ++ map f l.
Proof.
  revert z; induction l as [|a t IH]; intros z; simpl.
  - now rewrite app_nil_r.
  - rewrite IH, <- app_assoc. reflexivity.
Qed.

Lemma fold_rows_append (f : R -> R) (rows : list (list R)) (z : list R) :
  fold_left (fun z row => fold_left (fun z a => z ++ [f a]) row z) rows z
  = z ++ map f (concat rows).
Proof.
  revert z; induction rows as [|row t IH]; intros z; simpl.
  - now rewrite app_nil_r.
  - rewrite fold_append_map, IH, map_app, app_assoc. reflexivity.
Qed.

(** The three loops build the full cross product, expert-major. *)
Lemma gaps_cross beta QE QPi : gaps beta QE QPi = cross_gaps beta QE QPi.
Proof.
  unfold gaps, cross_gaps.
  enough (H : forall z,
    fold_left (fun z q_e =>
      fold_left (fun z QP_i =>
        fold_left (fun z q_i => z ++ [beta * (q_i - q_e)]) QP_i z) QPi z) QE z
    = z ++ flat_map (fun q_e => map (fun q_i => beta * (q_i - q_e)) (concat QPi)) QE)
    by apply (H []).
  induction QE as [|q_e t IH]; intros z; simpl.
  - now rewrite app_nil_r.
  - rewrite (fold_rows_append (fun q_i => beta * (q_i - q_e))), IH, app_assoc.
    reflexivity.
Qed.

(** C1 (amended): [_mh_ratio] returns [(lk_new + p_new) / (lk + p)] with
    [p], [p_new] the sums of [prior.log_p] and [lk], [lk_new] minus the
    logsumexp of the flat list of [beta * (q_i - q_e)] over every expert
    quality [q_e] of [QE] combined with every generated quality [q_i] of
    every inner list of [QPi] (the full cross product); when one of the two
    flat lists is empty logsumexp raises and nothing is returned. *)
Theorem mh_ratio_is_over_the_cross_product
  (log_p : vec -> list R) (self : TBIRLPolicyWalk) (r r_new : vec)
  (QE QE_new : list R) (QPi QPi_new : list (list R)) :
  _mh_ratio log_p self r r_new QE QE_new QPi QPi_new
  = ratio_of (np_sum (log_p r)) (np_sum (log_p r_new))
             (cross_gaps (_beta self) QE QPi)
             (cross_gaps (_beta self) QE_new QPi_new).
Proof.
  unfold _mh_ratio, ratio_of. rewrite !gaps_cross. reflexivity.
Qed.

Lemma fold_max_zeros n : fold_left Rmax (repeat 0 n) 0 = 0.
Proof.
  induction n as [|n IH]; simpl; auto.
  replace (Rmax 0 0) with 0; auto.
  unfold Rmax; destruct (Rle_dec 0 0); reflexivity.
Qed.

Lemma sum_exp_zeros n acc :
  fold_left Rplus (map (fun v => exp (v - 0)) (repeat 0 n)) acc = acc + INR n.
Proof.
  revert acc; induction n as [|n IH]; intros acc.
  - simpl; lra.
  - rewrite S_INR. cbn [repeat map fold_left]. rewrite IH, Rminus_0_r, exp_0. lra.
Qed.

Lemma logsumexp_zeros n : logsumexp (repeat 0 (S n)) = Ret (ln (INR (S n))).
Proof.
  unfold logsumexp. cbn [repeat]. rewrite fold_max_zeros. unfold np_sum.
  change (0 :: repeat 0 n) with (repeat 0 (S n)).
  rewrite sum_exp_zeros, Rplus_0_l, Rplus_0_r. reflexivity.
Qed.

Lemma logsumexp_singleton x : logsumexp [x] = Ret x.
Proof.
  unfold logsumexp, np_sum. cbn [map fold_left].
  replace (x - x) with 0 by lra. rewrite exp_0, Rplus_0_l, ln_1. f_equal. lra.
Qed.

(** C1 as stated fails: with two start-states the flat list of the code has
    four entries, the list of matched pairs has two, and the ratios differ. *)
Lemma mh_ratio_is_not_over_matched_pairs :
  _mh_ratio (const_log_p (-1)) (sampler (1 / 2) 0 1 false)
            [0] [0] [0] [0; 0] [[0]] [[0]; [0]]
  <> ratio_of (np_sum (const_log_p (-1) [0])) (np_sum (const_log_p (-1) [0]))
              (matched_gaps 1 [0] [[0]]) (matched_gaps 1 [0; 0] [[0]; [0]]).
Proof.
  unfold _mh_ratio, ratio_of. rewrite !gaps_cross.
  cbn [cross_gaps matched_gaps flat_map concat map combine app fst snd
       sampler _beta const_log_p].
  replace (1 * (0 - 0)) with 0 by lra.
  change [0; 0; 0; 0] with (repeat 0 4).
  change [0; 0] with (repeat 0 2).
  rewrite logsumexp_singleton, !logsumexp_zeros. cbn [bind].
  unfold np_sum; cbn [fold_left].
  assert (H24 : ln (INR 2) < ln (INR 4)).
  { apply ln_increasing; simpl; lra. }
  unfold np_div. rdecide.
  intros H. injection H as H. simpl in H24.
  unfold Rdiv in H. apply Rmult_eq_reg_r in H; [lra|].
  apply Rinv_neq_0_compat. lra.
Qed.

(** C9 (amended): when the denominator [lk + p] is zero and both logsumexp
    calls succeed, [_mh_ratio] raises nothing: numpy's division returns nan
    or an infinity, and that value goes back to the caller. *)
Theorem zero_denominator_yields_a_non_finite_value
  (log_p : vec -> list R) (self : TBIRLPolicyWalk) (r r_new : vec)
  (QE QE_new : list R) (QPi QPi_new : list (list R)) (l l_new : R) :
  logsumexp (gaps (_beta self) QE QPi) = Ret l ->
  logsumexp (gaps (_beta self) QE_new QPi_new) = Ret l_new ->
  - l + np_sum (log_p r) = 0 ->
  exists v, _mh_ratio log_p self r r_new QE QE_new QPi QPi_new = Ret v /\
            (v = NaN \/ exists s, v = Inf s).
Proof.
  intros Hl Hn H0. unfold _mh_ratio. rewrite Hl, Hn. cbn [bind].
  unfold np_div. rewrite H0.
  destruct (Req_dec_T 0 0) as [_|C]; [|congruence].
  destruct (Req_dec_T (- l_new + np_sum (log_p r_new)) 0).
  - exists NaN. auto.
  - eexists. split; [reflexivity|]. right. eexists; reflexivity.
Qed.

Lemma zero_denominator_yields_a_non_finite_value_witness :
  exists v,
    _mh_ratio (const_log_p 0) (sampler (1 / 2) 0 1 false)
              [0] [0] [0] [0] [[0]] [[0]] = Ret v /\
    (v = NaN \/ exists s, v = Inf s).
Proof.
  apply (zero_denominator_yields_a_non_finite_value
           (const_log_p 0) (sampler (1 / 2) 0 1 false)
           [0] [0] [0] [0] [[0]] [[0]] (1 * (0 - 0)) (1 * (0 - 0))).
  - apply logsumexp_singleton.
  - apply logsumexp_singleton.
  - unfold np_sum; simpl; lra.
Defined.

(** C9 as stated fails: with equal expert and generated quality and a prior
    of log-density 0 the denominator is zero, and the call returns nan
    instead of raising. *)
Lemma zero_denominator_returns_nan :
  (exists l, logsumexp (gaps 1 [0] [[0]]) = Ret l /\
             - l + np_sum (const_log_p 0 [0]) = 0) /\
  _mh_ratio (const_log_p 0) (sampler (1 / 2) 0 1 false)
            [0] [0] [0] [0] [[0]] [[0]] = Ret NaN.
Proof.
  split.
  - exists (1 * (0 - 0)). split; [apply logsumexp_singleton|].
    unfold np_sum; simpl; lra.
  - unfold _mh_ratio.
    cbn [gaps fold_left app sampler _beta const_log_p map].
    rewrite logsumexp_singleton. cbn [bind].
    unfold np_sum, np_div; cbn [fold_left]. rdecide. reflexivity.
Qed.

(** ** Cooling *)

Lemma cooling_increasing (a b : Z) : (a < b)%Z -> _cooling a < _cooling b.
Proof. intros H. apply IZR_lt in H. unfold _cooling. lra. Qed.

Lemma cooling_positive (s : Z) : (1 <= s)%Z -> 5 < _cooling s.
Proof. intros H. apply IZR_le in H. unfold _cooling. lra. Qed.

Lemma Rpower_one a : Rpower 1 a = 1.
Proof. unfold Rpower. now rewrite ln_1, Rmult_0_r, exp_0. Qed.

Lemma Rpower_antitone x a b :
  0 < x <= 1 -> a <= b -> Rpower x b <= Rpower x a.
Proof.
  intros [Hx0 Hx1] Hab. unfold Rpower.
  assert (Hln : ln x <= 0).
  { destruct (Rle_lt_or_eq_dec _ _ Hx1) as [Hlt| ->].
    - left. rewrite <- ln_1. now apply ln_increasing.
    - rewrite ln_1. lra. }
  assert (Hm : b * ln x <= a * ln x) by nra.
  destruct (Rle_lt_or_eq_dec _ _ Hm) as [Hlt|Heq].
  - left. now apply exp_increasing.
  - rewrite Heq. lra.
Qed.

Lemma np_pow_nonneg x a :
  0 <= x <= 1 -> 0 < a ->
  np_pow (Fin x) a = Fin (if Rltb 0 x then Rpower x a else 0).
Proof.
  intros Hx Ha. unfold np_pow.
  destruct (Req_dec_T a 0); [lra|].
  destruct (Rltb 0 x) eqn:E; auto.
  apply Rltb_false in E.
  destruct (Req_dec_T x 0); [|lra].
  now rewrite (proj2 (Rltb_true 0 a) Ha).
Qed.

Lemma np_pow_negative_integral v n :
  v < 0 -> n <> 0%Z -> np_pow (Fin v) (IZR n) = Fin (powerRZ v n).
Proof.
  intros Hv Hn. unfold np_pow, is_integer.
  destruct (Req_dec_T (IZR n) 0) as [E|_]; [apply eq_IZR_R0 in E; congruence|].
  rewrite (proj2 (Rltb_false 0 v)) by lra.
  destruct (Req_dec_T v 0); [lra|].
  rewrite ZfloorZ. destruct (Req_dec_T (IZR n) (IZR n)); congruence.
Qed.

Lemma np_pow_negative_fractional v a z :
  v < 0 -> IZR z < a < IZR z + 1 -> a <> 0 -> np_pow (Fin v) a = NaN.
Proof.
  intros Hv Ha H0. unfold np_pow, is_integer.
  destruct (Req_dec_T a 0); [lra|].
  rewrite (proj2 (Rltb_false 0 v)) by lra.
  destruct (Req_dec_T v 0); [lra|].
  rewrite (Zfloor_eq z a) by lra.
  destruct (Req_dec_T a (IZR z)); [lra|reflexivity].
Qed.

(** C6 (amended): with cooling enabled and a fixed ratio that is not
    negative, the acceptance probability [min(1, ratio) ** (5 + step/50)]
    does not increase with the step (so its value at step 500 is at most its
    value at step 1), and the exponent increases strictly with the step. *)
Theorem cooled_acceptance_is_non_increasing
  (self : TBIRLPolicyWalk) (x : R) (s1 s2 : Z) :
  _tempered self = true -> 0 <= x -> (1 <= s1 <= s2)%Z ->
  np_le (accept_probability self (Fin x) s2)
        (accept_probability self (Fin x) s1) = true /\
  np_le (accept_probability self (Fin x) 500)
        (accept_probability self (Fin x) 1) = true /\
  (forall a b : Z, (a < b)%Z -> _cooling a < _cooling b).
Proof.
  intros Ht Hx Hs.
  assert (mono : forall a b : Z, (1 <= a <= b)%Z ->
            np_le (accept_probability self (Fin x) b)
                  (accept_probability self (Fin x) a) = true).
  { intros a b Hab. unfold accept_probability. rewrite Ht.
    assert (Ha : 5 < _cooling a) by (apply cooling_positive; lia).
    assert (Hb : 5 < _cooling b) by (apply cooling_positive; lia).
    assert (Hle : _cooling a <= _cooling b).
    { destruct (Z.eq_dec a b) as [->|Hne]; [lra|].
      left. apply cooling_increasing. lia. }
    unfold min1. destruct (Rltb x 1) eqn:E.
    - apply Rltb_true in E. rewrite !np_pow_nonneg by lra.
      cbn [np_le]. apply Rleb_true.
      destruct (Rltb 0 x) eqn:E0; [|lra].
      apply Rltb_true in E0. apply Rpower_antitone; lra.
    - rewrite !np_pow_nonneg by lra.
      rewrite (proj2 (Rltb_true 0 1)) by lra.
      cbn [np_le]. apply Rleb_true. rewrite !Rpower_one. lra. }
  split; [apply mono; lia|]. split; [apply mono; lia|].
  exact cooling_increasing.
Qed.

Lemma cooled_acceptance_is_non_increasing_witness :
  np_le (accept_probability (sampler (1 / 2) 0 500 true) (Fin (1 / 2)) 150)
        (accept_probability (sampler (1 / 2) 0 500 true) (Fin (1 / 2)) 100)
  = true.
Proof.
  apply (cooled_acceptance_is_non_increasing
           (sampler (1 / 2) 0 500 true) (1 / 2) 100 150).
  - reflexivity.
  - lra.
  - lia.
Defined.

(** C6 as stated fails for a negative ratio: at ratio -1/2 the exponent is
    7 at step 100 and 8 at step 150, so the value goes up from -1/128 to
    1/256; and at step 1 the exponent 5.02 is not integral, the power is
    nan, and no comparison with it holds. *)
Lemma cooled_acceptance_rises_for_negative_ratio :
  accept_probability (sampler (1 / 2) 0 500 true) (Fin (-1 / 2)) 100
    = Fin (powerRZ (-1 / 2) 7) /\
  accept_probability (sampler (1 / 2) 0 500 true) (Fin (-1 / 2)) 150
    = Fin (powerRZ (-1 / 2) 8) /\
  powerRZ (-1 / 2) 7 < powerRZ (-1 / 2) 8 /\
  np_le (accept_probability (sampler (1 / 2) 0 500 true) (Fin (-1 / 2)) 150)
        (accept_probability (sampler (1 / 2) 0 500 true) (Fin (-1 / 2)) 100)
    = false /\
  np_le (accept_probability (sampler (1 / 2) 0 500 true) (Fin (-1 / 2)) 500)
        (accept_probability (sampler (1 / 2) 0 500 true) (Fin (-1 / 2)) 1)
    = false.
Proof.
  assert (H100 : accept_probability (sampler (1 / 2) 0 500 true) (Fin (-1 / 2)) 100
                 = Fin (powerRZ (-1 / 2) 7)).
  { unfold accept_probability; cbn [sampler _tempered min1].
    rewrite (proj2 (Rltb_true _ _)) by lra.
    replace (_cooling 100) with (IZR 7) by (unfold _cooling; lra).
    apply np_pow_negative_integral; [lra|lia]. }
  assert (H150 : accept_probability (sampler (1 / 2) 0 500 true) (Fin (-1 / 2)) 150
                 = Fin (powerRZ (-1 / 2) 8)).
  { unfold accept_probability; cbn [sampler _tempered min1].
    rewrite (proj2 (Rltb_true _ _)) by lra.
    replace (_cooling 150) with (IZR 8) by (unfold _cooling; lra).
    apply np_pow_negative_integral; [lra|lia]. }
  assert (H1 : accept_probability (sampler (1 / 2) 0 500 true) (Fin (-1 / 2)) 1
               = NaN).
  { unfold accept_probability; cbn [sampler _tempered min1].
    rewrite (proj2 (Rltb_true _ _)) by lra.
    apply (np_pow_negative_fractional _ _ 5); unfold _cooling; lra. }
  assert (Hlt : powerRZ (-1 / 2) 7 < powerRZ (-1 / 2) 8) by (simpl; lra).
  repeat split; auto.
  - rewrite H100, H150. cbn [np_le]. apply Rleb_false. exact Hlt.
  - rewrite H1. destruct (accept_probability _ _ 500) as [v|[|]|]; reflexivity.
Qed.

(** ** The running mean *)



(** At step 1 the update forgets the initial reward. *)
Lemma iterative_mean_first m r :
  length m = length r -> _iterative_reward_mean m r 1 = r.
Proof.
  unfold _iterative_reward_mean. revert r.
  induction m as [|a m IH]; intros [|x r] H; simpl in *; try discriminate; auto.
  f_equal; [lra | apply IH; lia].
Qed.




(** ** The loop of [_policy_walk] *)

Lemma propose_length P loc draws v :
  propose P loc draws = Ret v -> length v = length loc.
Proof.
  intros H. apply resample_ret in H.
  destruct H as (dr & x & _ & _ & _ & ->). apply set_nth_length.
Qed.

(** [range(1, n + 1)] counted above a threshold [b >= 0]. *)
Lemma count_above_threshold (n : nat) (b : Z) :
  (0 <= b)%Z ->
  length (filter (fun s => (s >? b)%Z) (map Z.of_nat (seq 1 n)))
  = (n - Z.to_nat b)%nat.
Proof.
  intros Hb. induction n as [|n IH]; auto.
  rewrite seq_S, map_app, filter_app, length_app, IH. cbn [map filter Nat.add].
  destruct (Z.of_nat (S n) >? b)%Z eqn:E; cbn [length].
  - apply Z.gtb_lt in E. lia.
  - rewrite Z.gtb_ltb in E. apply Z.ltb_ge in E. lia.
Qed.

Lemma py_int_nonneg x : 0 <= x -> py_int x = Zfloor x.
Proof. intros H. unfold py_int. destruct (Rle_dec 0 x); [reflexivity|lra]. Qed.

Section Walk.

Variable trajs : Type.
Variable _expert_trajectory_quality : vec -> list R.
Variable _generated_trajectory_quality : vec -> trajs -> list (list R).
Variable log_p : vec -> list R.
Variable _prior : vec -> list R.
Variable rdim : nat.
Variable self : TBIRLPolicyWalk.
Variable g_trajs : trajs.
Variable rnd : randomness.

Local Notation "'body_'" :=
  (body trajs _expert_trajectory_quality _generated_trajectory_quality log_p
        self g_trajs rnd).
Local Notation "'loop_'" :=
  (loop trajs _expert_trajectory_quality _generated_trajectory_quality log_p
        self g_trajs rnd).
Local Notation "'enter_'" :=
  (enter trajs _expert_trajectory_quality _generated_trajectory_quality _prior rdim
         self g_trajs rnd).
Local Notation "'walk_run_'" :=
  (walk_run trajs _expert_trajectory_quality _generated_trajectory_quality log_p
            _prior rdim self g_trajs rnd).
Local Notation "'policy_walk_'" :=
  (_policy_walk trajs _expert_trajectory_quality _generated_trajectory_quality log_p
                _prior rdim self g_trajs rnd).

(** What one step of the loop leaves alone and what it records. *)
Lemma body_step st step st' ev :
  body_ st step = Ret (st', ev) ->
  p_dist st' = p_dist st /\ QE st' = QE st /\ QPi st' = QPi st /\
  burn_point st' = burn_point st /\
  ev_step ev = step /\ ev_r ev = r_mean st /\
  ev_QE ev = QE st /\ ev_QPi ev = QPi st /\
  propose (p_dist st) (r_mean st) (step_draws rnd step) = Ret (ev_r_new ev) /\
  _mh_ratio log_p self (r_mean st) (ev_r_new ev)
            (QE st) (_expert_trajectory_quality (ev_r_new ev))
            (QPi st) (_generated_trajectory_quality (ev_r_new ev) g_trajs)
    = Ret (ev_ratio ev) /\
  r_mean st' = (if ev_accepted ev
                then _iterative_reward_mean (r_mean st) (ev_r_new ev) step
                else r_mean st) /\
  length (trace (fdata st'))
    = (length (trace (fdata st)) + if (step >? burn_point st)%Z then 1 else 0)%nat /\
  length (walk (fdata st'))
    = (length (walk (fdata st)) + if (step >? burn_point st)%Z then 1 else 0)%nat.
Proof.
  unfold body.
  destruct (propose (p_dist st) (r_mean st) (step_draws rnd step))
    as [r_new| |] eqn:Hp; cbn [bind]; try discriminate.
  destruct (_mh_ratio log_p self (r_mean st) r_new (QE st)
              (_expert_trajectory_quality r_new) (QPi st)
              (_generated_trajectory_quality r_new g_trajs))
    as [ratio| |] eqn:Hr; cbn [bind]; try discriminate.
  intros H; inversion H; subst st' ev; clear H.
  cbn [ev_step ev_r ev_r_new ev_QE ev_QPi ev_ratio ev_accepted].
  destruct (np_gt (accept_probability self ratio step) (step_u rnd step));
    cbn [accept burn_point];
    destruct (step >? burn_point st)%Z;
    cbn [keep_sample accept p_dist QE QPi burn_point r_mean fdata trace walk];
    rewrite ?length_app; cbn [length];
    repeat split; auto; lia.
Qed.

Lemma loop_steps steps : forall st st' evs,
  loop_ steps st = Ret (st', evs) ->
  p_dist st' = p_dist st /\ QE st' = QE st /\ QPi st' = QPi st /\
  burn_point st' = burn_point st /\
  map ev_step evs = steps /\
  Forall (fun ev => ev_QE ev = QE st /\ ev_QPi ev = QPi st /\
            _mh_ratio log_p self (ev_r ev) (ev_r_new ev)
              (QE st) (_expert_trajectory_quality (ev_r_new ev))
              (QPi st) (_generated_trajectory_quality (ev_r_new ev) g_trajs)
            = Ret (ev_ratio ev)) evs /\
  length (trace (fdata st'))
    = (length (trace (fdata st))
       + length (filter (fun s => (s >? burn_point st)%Z) steps))%nat /\
  length (walk (fdata st'))
    = (length (walk (fdata st))
       + length (filter (fun s => (s >? burn_point st)%Z) steps))%nat.
Proof.
  induction steps as [|step rest IH]; intros st st' evs; cbn [loop].
  - intros H; inversion H; subst. cbn [map filter length].
    repeat split; auto; lia.
  - destruct (body_ st step) as [[st1 ev]| |] eqn:Hb; cbn [bind fst snd];
      try discriminate.
    destruct (loop_ rest st1) as [[st2 evs2]| |] eqn:Hl; cbn [bind fst snd];
      try discriminate.
    intros H; injection H as <- <-.
    apply body_step in Hb.
    destruct Hb as (B1 & B2 & B3 & B4 & B5 & B6 & B7 & B8 & B9 & B10 & B11 & B12 & B13).
    destruct (IH _ _ _ Hl) as (L1 & L2 & L3 & L4 & L5 & L6 & L7 & L8).
    rewrite B2, B3, B4 in *.
    repeat split; try congruence.
    + cbn [map]. congruence.
    + constructor; [rewrite B6; auto|exact L6].
    + rewrite L7, B12. cbn [filter].
      destruct (step >? burn_point st)%Z; cbn [length]; lia.
    + rewrite L8, B13. cbn [filter].
      destruct (step >? burn_point st)%Z; cbn [length]; lia.
Qed.


Lemma enter_frame st0 :
  enter_ = Ret st0 ->
  initialize_reward _prior rdim self (init_picks rnd) = Ret (r_mean st0) /\
  QE st0 = _expert_trajectory_quality (r_mean st0) /\
  QPi st0 = _generated_trajectory_quality (r_mean st0) g_trajs /\
  burn_point st0 = burn_threshold self /\
  dim (p_dist st0) = length (r_mean st0) /\
  trace (fdata st0) = trace (data self) /\
  walk (fdata st0) = walk (data self).
Proof.
  unfold enter.
  destruct (initialize_reward _prior rdim self (init_picks rnd)) as [r| |];
    cbn [bind]; try discriminate.
  intros H; injection H as <-. cbn. repeat split; reflexivity.
Qed.

Lemma policy_walk_of_run st evs :
  walk_run_ = Ret (st, evs) ->
  exists self', policy_walk_ = Ret (r_mean st, self') /\
                trace (data self') = trace (fdata st) /\
                walk (data self') = walk (fdata st).
Proof.
  intros H. unfold _policy_walk. rewrite H. cbn [bind fst].
  eexists. split; [reflexivity|]. split; reflexivity.
Qed.

Lemma run_of_policy_walk res self' :
  policy_walk_ = Ret (res, self') ->
  exists st evs, walk_run_ = Ret (st, evs) /\ res = r_mean st /\
                 trace (data self') = trace (fdata st) /\
                 walk (data self') = walk (fdata st).
Proof.
  unfold _policy_walk.
  destruct walk_run_ as [[st evs]| |]; cbn [bind fst]; try discriminate.
  intros H; injection H as <- <-. exists st, evs. repeat split; reflexivity.
Qed.


(** C4: in one invocation, for [mcmc_iter >= 0] and [burn >= 0], the burn
    threshold is [floor(mcmc_iter * burn / 100)]; the trace and the walk
    each grow by [mcmc_iter - burn_point] entries when
    [burn_point < mcmc_iter] and by none otherwise; and
    [burn_point <= mcmc_iter] when [burn <= 100]. *)
Theorem burn_in_skips_the_first_samples (res : vec) (self' : TBIRLPolicyWalk) :
  (0 <= _mcmc_iter self)%Z -> 0 <= _burn self ->
  policy_walk_ = Ret (res, self') ->
  burn_threshold self = Zfloor (IZR (_mcmc_iter self) * _burn self / 100) /\
  length (trace (data self'))
    = (length (trace (data self))
       + if (burn_threshold self <? _mcmc_iter self)%Z
         then Z.to_nat (_mcmc_iter self - burn_threshold self) else 0)%nat /\
  length (walk (data self'))
    = (length (walk (data self))
       + if (burn_threshold self <? _mcmc_iter self)%Z
         then Z.to_nat (_mcmc_iter self - burn_threshold self) else 0)%nat /\
  (_burn self <= 100 -> (burn_threshold self <= _mcmc_iter self)%Z).
Proof.
  intros HN Hburn Hpw.
  assert (HNr : 0 <= IZR (_mcmc_iter self)) by now apply IZR_le.
  assert (Hx : 0 <= IZR (_mcmc_iter self) * _burn self / 100) by nra.
  assert (HB : burn_threshold self
               = Zfloor (IZR (_mcmc_iter self) * _burn self / 100)).
  { unfold burn_threshold. now apply py_int_nonneg. }
  assert (HB0 : (0 <= burn_threshold self)%Z).
  { rewrite HB. apply Zfloor_lub. exact Hx. }
  destruct (run_of_policy_walk _ _ Hpw) as (st & evs & Hrun & _ & Ht & Hw).
  unfold walk_run in Hrun.
  destruct enter_ as [st0| |] eqn:He; cbn [bind] in Hrun; try discriminate.
  apply enter_frame in He. destruct He as (_ & _ & _ & Hbp & _ & Ht0 & Hw0).
  apply loop_steps in Hrun.
  destruct Hrun as (_ & _ & _ & _ & _ & _ & Lt & Lw).
  unfold range1 in Lt, Lw.
  rewrite Hbp, count_above_threshold in Lt, Lw by exact HB0.
  rewrite Ht0 in Lt. rewrite Hw0 in Lw.
  assert (Hcount : (Z.to_nat (_mcmc_iter self) - Z.to_nat (burn_threshold self))%nat
                   = if (burn_threshold self <? _mcmc_iter self)%Z
                     then Z.to_nat (_mcmc_iter self - burn_threshold self)
                     else 0%nat).
  { destruct (burn_threshold self <? _mcmc_iter self)%Z eqn:E.
    - apply Z.ltb_lt in E. lia.
    - apply Z.ltb_ge in E. lia. }
  rewrite Hcount in Lt, Lw.
  split; [exact HB|]. split; [congruence|]. split; [congruence|].
  intros H100. rewrite HB.
  rewrite <- (ZfloorZ (_mcmc_iter self)) at 2. apply Zfloor_le. nra.
Qed.

(** C10: in one invocation the lists [QE] and [QPi] handed to every
    [_mh_ratio] call as the current-reward side are the ones computed at the
    initial reward before the loop; so the likelihood term of the
    denominator is the same number [- l0] at every step, and only the prior
    term, taken at the running mean of that step, changes. *)
Theorem current_side_qualities_are_computed_once (st : frame) (evs : list event) :
  walk_run_ = Ret (st, evs) ->
  exists r0,
    initialize_reward _prior rdim self (init_picks rnd) = Ret r0 /\
    QE st = _expert_trajectory_quality r0 /\
    QPi st = _generated_trajectory_quality r0 g_trajs /\
    Forall (fun ev =>
      ev_QE ev = _expert_trajectory_quality r0 /\
      ev_QPi ev = _generated_trajectory_quality r0 g_trajs /\
      exists l0 l_new,
        logsumexp (gaps (_beta self) (_expert_trajectory_quality r0)
                        (_generated_trajectory_quality r0 g_trajs)) = Ret l0 /\
        logsumexp (gaps (_beta self)
                        (_expert_trajectory_quality (ev_r_new ev))
                        (_generated_trajectory_quality (ev_r_new ev) g_trajs))
          = Ret l_new /\
        ev_ratio ev = np_div (- l_new + np_sum (log_p (ev_r_new ev)))
                             (- l0 + np_sum (log_p (ev_r ev)))) evs.
Proof.
  intros Hrun. unfold walk_run in Hrun.
  destruct enter_ as [st0| |] eqn:He; cbn [bind] in Hrun; try discriminate.
  apply enter_frame in He. destruct He as (Hinit & HQE & HQPi & _).
  apply loop_steps in Hrun.
  destruct Hrun as (_ & L2 & L3 & _ & _ & L6 & _).
  exists (r_mean st0). rewrite L2, L3, <- HQE, <- HQPi.
  repeat split; auto.
  eapply Forall_impl; [|exact L6].
  intros ev (E1 & E2 & E3). split; [exact E1|]. split; [exact E2|].
  unfold _mh_ratio in E3.
  destruct (logsumexp (gaps (_beta self) (QE st0) (QPi st0))) as [l0| |];
    cbn [bind] in E3; try discriminate.
  destruct (logsumexp (gaps (_beta self)
              (_expert_trajectory_quality (ev_r_new ev))
              (_generated_trajectory_quality (ev_r_new ev) g_trajs)))
    as [l_new| |]; cbn [bind] in E3; try discriminate.
  exists l0, l_new. injection E3 as <-. auto.
Qed.

End Walk.

(** ** The initial reward *)

Lemma mapM_ret {A B : Type} (f : A -> outcome B) (g : A -> B) (l : list A) :
  (forall a, In a l -> f a = Ret (g a)) -> mapM f l = Ret (map g l).
Proof.
  induction l as [|a t IH]; intros H; cbn [mapM map]; auto.
  rewrite (H a) by now left. cbn [bind].
  rewrite IH by (intros; apply H; now right). reflexivity.
Qed.

Lemma nth_error_grid (f : nat -> R) (m k : nat) :
  (k < m)%nat -> nth_error (map f (seq 0 m)) k = Some (f k).
Proof.
  intros H. apply map_nth_error.
  rewrite (nth_error_nth' _ 0%nat) by (rewrite length_seq; lia).
  now rewrite seq_nth.
Qed.

(** Without tempering inference_mcmc.py returns [rdim] points of the grid
    that starts at [-rmax] with spacing [delta], none above [rmax]. *)
Lemma initialize_reward_grid (_prior : vec -> list R) (rdim : nat)
  (self : TBIRLPolicyWalk) (picks : nat -> nat) :
  0 < _rmax self -> 0 < _delta self -> _tempered self = false ->
  exists r,
    initialize_reward _prior rdim self picks = Ret r /\
    length r = rdim /\
    Forall (fun x => (exists i : nat, x = - _rmax self + INR i * _delta self) /\
                     - _rmax self <= x <= _rmax self) r.
Proof.
  intros Hr Hd Ht. unfold initialize_reward, py_div.
  destruct (Req_dec_T (_delta self) 0) as [E|_]; [lra|]. cbn [bind].
  rewrite Ht.
  set (q := _rmax self / _delta self).
  assert (Hq : 0 < q) by (unfold q; now apply Rdiv_lt_0_compat).
  assert (Hqd : q * _delta self = _rmax self) by (unfold q; field; lra).
  rewrite py_int_nonneg by lra.
  set (n := Zfloor (q + 1)).
  assert (Hn1 : (1 <= n)%Z) by (apply Zfloor_lub; lra).
  assert (Hnq : IZR n <= q + 1) by apply Zfloor_bound.
  set (f := fun i : nat => - _rmax self + INR i * _delta self).
  set (g := fun j : nat => f (picks j mod Z.to_nat n)%nat).
  rewrite (mapM_ret _ g).
  - cbn [bind]. exists (map g (seq 0 rdim)).
    split; [reflexivity|]. split; [now rewrite length_map, length_seq|].
    apply Forall_map, Forall_forall. intros j _. unfold g, f.
    assert (Hk : (picks j mod Z.to_nat n < Z.to_nat n)%nat)
      by (apply Nat.mod_upper_bound; lia).
    set (k := (picks j mod Z.to_nat n)%nat) in *.
    split; [now exists k|].
    assert (Hk0 : 0 <= INR k) by apply pos_INR.
    assert (Hk1 : INR k <= IZR n - 1).
    { rewrite INR_IZR_INZ, <- minus_IZR. apply IZR_le. lia. }
    split; nra.
  - intros j _. unfold randrange.
    destruct (n <=? 0)%Z eqn:E; [apply Z.leb_le in E; lia|]. cbn [bind].
    unfold range. rewrite nth_error_grid; [reflexivity|].
    apply Nat.mod_upper_bound; lia.
Qed.

Lemma map_const_seq (x : R) (f : nat -> R) (a n : nat) :
  (forall j, f j = x) -> map f (seq a n) = repeat x n.
Proof.
  intros H. revert a; induction n as [|n IH]; intros a; cbn [seq map repeat]; auto.
  now rewrite H, IH.
Qed.

(** C5 (amended): for [reward_max = Rmax > 0] and step size [delta > 0],
    without tempering, [initialize_reward] of inference_mcmc.py returns
    [rdim] components, each of the form [-Rmax + i * delta] for a natural
    number [i] and none outside [[-Rmax, Rmax]]; [initialize_reward] of
    iterative_birl.py returns [rdim] components of [[-Rmax, Rmax)], and there
    every point of [[-Rmax, Rmax)] is a possible value. *)
Theorem initial_reward_stays_within_reward_max
  (_prior : vec -> list R) (rdim : nat) (self : TBIRLPolicyWalk) :
  0 < _rmax self -> 0 < _delta self -> _tempered self = false ->
  (forall picks, exists r,
     initialize_reward _prior rdim self picks = Ret r /\
     length r = rdim /\
     Forall (fun x => (exists i : nat, x = - _rmax self + INR i * _delta self) /\
                      - _rmax self <= x <= _rmax self) r) /\
  (forall us, (forall j, 0 <= us j < 1) -> exists r,
     IterativeBirl.initialize_reward _prior rdim self us = Ret r /\
     length r = rdim /\
     Forall (fun x => - _rmax self <= x < _rmax self) r) /\
  (forall x, - _rmax self <= x < _rmax self -> exists us,
     (forall j, 0 <= us j < 1) /\
     IterativeBirl.initialize_reward _prior rdim self us = Ret (repeat x rdim)).
Proof.
  intros Hr Hd Ht. split; [|split].
  - intros picks. now apply initialize_reward_grid.
  - intros us Hus. unfold IterativeBirl.initialize_reward. rewrite Ht.
    eexists. split; [reflexivity|].
    split; [now rewrite length_map, length_seq|].
    apply Forall_map, Forall_forall. intros j _.
    unfold IterativeBirl.np_uniform. specialize (Hus j). split; nra.
  - intros x Hx.
    exists (fun _ => (x + _rmax self) / (2 * _rmax self)). split.
    + intros _. split.
      * apply Rmult_le_pos; [lra|]. left. apply Rinv_0_lt_compat. lra.
      * apply Rmult_lt_reg_r with (2 * _rmax self); [lra|].
        unfold Rdiv. rewrite Rmult_assoc, Rinv_l by lra. lra.
    + unfold IterativeBirl.initialize_reward. rewrite Ht. f_equal.
      apply map_const_seq. intros _. unfold IterativeBirl.np_uniform.
      field. lra.
Qed.

Lemma initial_reward_stays_within_reward_max_witness :
  exists r,
    initialize_reward (fun r => r) 1 (sampler (1 / 2) 0 1 false) (fun _ => 2%nat)
      = Ret r /\
    length r = 1%nat /\
    Forall (fun x => (exists i : nat, x = - (1) + INR i * (1 / 2)) /\
                     - (1) <= x <= 1) r.
Proof.
  apply (initial_reward_stays_within_reward_max
           (fun r => r) 1 (sampler (1 / 2) 0 1 false)).
  - simpl; lra.
  - simpl; lra.
  - reflexivity.
Defined.

(** C5 as stated fails for inference_mcmc.py: with [Rmax = 1] and
    [delta = 1/2] the point -1/4 of the range is never drawn. *)
Lemma initial_reward_misses_points_of_the_range :
  - (1) <= -1 / 4 <= 1 /\
  ~ (exists picks,
       initialize_reward (fun r => r) 1 (sampler (1 / 2) 0 1 false) picks
       = Ret [-1 / 4]).
Proof.
  split; [lra|]. intros [picks H].
  destruct (initialize_reward_grid (fun r => r) 1 (sampler (1 / 2) 0 1 false) picks)
    as (r & Hr & _ & HF); try (simpl; lra); try reflexivity.
  rewrite H in Hr. injection Hr as <-.
  inversion HF as [|? ? [[i Hi] _] _]; subst.
  cbn [sampler _rmax _delta] in Hi.
  destruct i as [|[|i]].
  - simpl in Hi. lra.
  - simpl in Hi. lra.
  - rewrite !S_INR in Hi. pose proof (pos_INR i). lra.
Qed.

(** ** A run that accepts every sample *)

Lemma sum_const_log_p c (r : vec) :
  np_sum (const_log_p c r) = INR (length r) * c.
Proof.
  unfold np_sum, const_log_p.
  enough (H : forall acc, fold_left Rplus (map (fun _ : R => c) r) acc
                          = acc + INR (length r) * c)
    by (rewrite H; lra).
  induction r as [|x t IH]; intros acc.
  - simpl; lra.
  - cbn [map fold_left length]. rewrite IH, S_INR. lra.
Qed.

Lemma steady_ratio (self : TBIRLPolicyWalk) x y :
  exists v,
    _mh_ratio (const_log_p (-1)) self [x] [y] [0] [0] [[0]] [[0]] = Ret v /\
    min1 v = Fin 1.
Proof.
  unfold _mh_ratio. cbn [gaps fold_left app].
  rewrite logsumexp_singleton. cbn [bind].
  rewrite !sum_const_log_p. cbn [length INR].
  unfold np_div.
  destruct (Req_dec_T (- (_beta self * (0 - 0)) + 1 * -1) 0) as [E|NE]; [lra|].
  eexists. split; [reflexivity|]. unfold min1.
  replace ((- (_beta self * (0 - 0)) + 1 * -1) / (- (_beta self * (0 - 0)) + 1 * -1))
    with 1 by (field; lra).
  now rewrite (proj2 (Rltb_false 1 1)) by lra.
Qed.

Lemma steady_proposal x :
  -1 <= x <= 1 ->
  exists y,
    propose {| dim := 1; delta := 1 / 2; bounded := true |} [x]
            [{| up_sign := true; pick := 0 |}; {| up_sign := false; pick := 0 |}]
    = Ret [y] /\ -1 <= y <= 1.
Proof.
  intros Hx. unfold propose.
  destruct (Rle_dec (x + 1 / 2) 1) as [Hup|Hup].
  - exists (x + 1 / 2). split; [|lra].
    rewrite (resample_hit _ _ _ _ x); cbn; try lia; try reflexivity.
    intros _; lra.
  - exists (x + - (1 / 2)). split; [|lra].
    rewrite resample_miss.
    + rewrite (resample_hit _ _ _ _ x); cbn; try lia; try reflexivity.
      intros _; lra.
    + cbn; lia.
    + reflexivity.
    + unfold passes; cbn. apply in_unit_false. lra.
    + cbn; lia.
Qed.

Lemma steady_mean x y step :
  (1 <= step)%Z -> -1 <= x <= 1 -> -1 <= y <= 1 ->
  exists m, _iterative_reward_mean [x] [y] step = [m] /\ -1 <= m <= 1.
Proof.
  intros Hs Hx Hy. apply IZR_le in Hs.
  unfold _iterative_reward_mean. cbn [combine map fst snd].
  eexists. split; [reflexivity|].
  assert (Ht : 0 < / IZR step <= 1).
  { split; [apply Rinv_0_lt_compat; lra|].
    rewrite <- Rinv_1. apply Rinv_le_contravar; lra. }
  replace ((IZR step - 1) / IZR step * x + 1 / IZR step * y)
    with ((1 - / IZR step) * x + / IZR step * y) by (field; lra).
  split; nra.
Qed.

Lemma steady_body burn N st step :
  steady_frame st -> (1 <= step)%Z ->
  exists st' ev,
    body unit flat_quality flat_generated (const_log_p (-1))
         (sampler (1 / 2) burn N false) tt steady_draws st step = Ret (st', ev) /\
    ev_accepted ev = true /\ steady_frame st'.
Proof.
  intros (HP & (x & Hm & Hx) & HQE & HQPi) Hstep.
  destruct (steady_proposal x Hx) as (y & Hp & Hy).
  destruct (steady_ratio (sampler (1 / 2) burn N false) x y) as (v & Hv & Hmin).
  destruct (steady_mean x y step Hstep Hx Hy) as (m & Hmean & Hmb).
  assert (Hacc : np_gt (accept_probability (sampler (1 / 2) burn N false) v step) 0
                 = true).
  { unfold accept_probability. cbn [sampler _tempered]. rewrite Hmin.
    cbn [np_gt]. apply Rltb_true. lra. }
  unfold body. rewrite HP, Hm, HQE, HQPi.
  cbn [steady_draws step_draws step_u]. rewrite Hp. cbn [bind].
  unfold flat_quality, flat_generated. rewrite Hv. cbn [bind].
  rewrite Hacc. eexists. eexists. split; [reflexivity|].
  split; [reflexivity|].
  unfold steady_frame.
  destruct (step >? burn_point (accept st [y] step))%Z;
    cbn [keep_sample accept p_dist QE QPi r_mean]; rewrite Hm, Hmean;
    repeat split; auto; exists m; auto.
Qed.

Lemma steady_loop burn N n : forall a st,
  steady_frame st -> (1 <= a)%nat ->
  exists st' evs,
    loop unit flat_quality flat_generated (const_log_p (-1))
         (sampler (1 / 2) burn N false) tt steady_draws
         (map Z.of_nat (seq a n)) st = Ret (st', evs) /\
    Forall (fun ev => ev_accepted ev = true) evs.
Proof.
  induction n as [|n IH]; intros a st Hst Ha; cbn [seq map loop].
  - exists st, []. auto.
  - destruct (steady_body burn N st (Z.of_nat a) Hst) as (st1 & ev & Hb & Hacc & Hst1);
      [lia|].
    rewrite Hb. cbn [bind fst snd].
    destruct (IH (S a) st1 Hst1) as (st2 & evs & Hl & Hall); [lia|].
    rewrite Hl. cbn [bind fst snd].
    exists st2, (ev :: evs). auto.
Qed.

(** For any burn value and number of steps the run returns, and every step
    accepts. *)
Lemma steady_run burn N :
  exists st evs,
    walk_run unit flat_quality flat_generated (const_log_p (-1)) (fun r => r) 1
             (sampler (1 / 2) burn N false) tt steady_draws = Ret (st, evs) /\
    Forall (fun ev => ev_accepted ev = true) evs.
Proof.
  unfold walk_run, enter.
  destruct (initialize_reward_grid (fun r => r) 1 (sampler (1 / 2) burn N false)
              (init_picks steady_draws))
    as (r & Hr & Hlen & HF); try (simpl; lra); try reflexivity.
  rewrite Hr. cbn [bind].
  destruct r as [|x [|? ?]]; try discriminate.
  inversion HF as [|? ? [_ Hx] _]; subst. cbn [sampler _rmax] in Hx.
  apply steady_loop; [|lia].
  unfold steady_frame. cbn. repeat split; auto. exists x. split; auto.
Qed.


Lemma burn_in_skips_the_first_samples_witness :
  exists res self',
    _policy_walk unit flat_quality flat_generated (const_log_p (-1)) (fun r => r) 1
                 (sampler (1 / 2) 50 4 false) tt steady_draws = Ret (res, self') /\
    burn_threshold (sampler (1 / 2) 50 4 false) = Zfloor (IZR 4 * 50 / 100) /\
    length (trace (data self'))
      = (0 + if (burn_threshold (sampler (1 / 2) 50 4 false) <? 4)%Z
             then Z.to_nat (4 - burn_threshold (sampler (1 / 2) 50 4 false))
             else 0)%nat.
Proof.
  destruct (steady_run 50 4) as (st & evs & Hrun & _).
  destruct (policy_walk_of_run _ _ _ _ _ _ _ _ _ _ _ Hrun) as (self' & Hpw & _).
  exists (r_mean st), self'. split; [exact Hpw|].
  assert (HN : (0 <= _mcmc_iter (sampler (1 / 2) 50 4 false))%Z) by (cbn; lia).
  assert (Hb : 0 <= _burn (sampler (1 / 2) 50 4 false)) by (cbn; lra).
  destruct (burn_in_skips_the_first_samples
              unit flat_quality flat_generated (const_log_p (-1)) (fun r => r) 1
              (sampler (1 / 2) 50 4 false) tt steady_draws (r_mean st) self'
              HN Hb Hpw)
    as (H1 & H2 & _).
  split; [exact H1 | exact H2].
Defined.

Lemma current_side_qualities_are_computed_once_witness :
  exists st evs r0,
    walk_run unit flat_quality flat_generated (const_log_p (-1)) (fun r => r) 1
             (sampler (1 / 2) 0 3 false) tt steady_draws = Ret (st, evs) /\
    initialize_reward (fun r => r) 1 (sampler (1 / 2) 0 3 false)
                      (init_picks steady_draws) = Ret r0 /\
    Forall (fun ev => ev_QE ev = flat_quality r0 /\
                      ev_QPi ev = flat_generated r0 tt) evs.
Proof.
  destruct (steady_run 0 3) as (st & evs & Hrun & _).
  destruct (current_side_qualities_are_computed_once
              unit flat_quality flat_generated (const_log_p (-1)) (fun r => r) 1
              (sampler (1 / 2) 0 3 false) tt steady_draws st evs Hrun)
    as (r0 & Hinit & _ & _ & HF).
  exists st, evs, r0. split; [exact Hrun|]. split; [exact Hinit|].
  eapply Forall_impl; [|exact HF]. intros ev (E1 & E2 & _). split; assumption.
Defined.

(** * Further properties of the proposal *)

Lemma resample_skip P loc pre : forall rest,
  bounded P = true -> (0 < dim P <= length loc)%nat ->
  Forall (fun d => passes P loc d = false) pre ->
  resample P loc (pre ++ rest) = resample P loc rest.
Proof.
  intros rest Hb Hd Hpre. induction Hpre as [|d pre Hp _ IH]; auto.
  cbn [app]. rewrite resample_miss; auto; try lia.
  pose proof (Nat.mod_upper_bound (pick d) (dim P)). lia.
Qed.

(** X1: the draws that fail the bound test leave no mark: the call returns
    the input perturbed by the first draw that passes (or, for an unbounded
    proposal, by the very first draw), and the result has the length of the
    input. *)
Theorem proposal_returns_first_passing_draw
  (P : PolicyWalkProposal) (loc : vec) (pre post : list draw) (dr : draw) :
  (0 < dim P <= length loc)%nat ->
  (bounded P = true -> Forall (fun d => passes P loc d = false) pre) ->
  (bounded P = false -> pre = []) ->
  (bounded P = true -> passes P loc dr = true) ->
  propose P loc (pre ++ dr :: post)
  = Ret (set_nth (pick dr mod dim P)
                 (nth (pick dr mod dim P) loc 0 + step_of P dr) loc) /\
  length (set_nth (pick dr mod dim P)
                  (nth (pick dr mod dim P) loc 0 + step_of P dr) loc)
  = length loc.
Proof.
  intros Hd Hpre Hun Hpass. split; [|apply set_nth_length].
  assert (Hi : (pick dr mod dim P < length loc)%nat).
  { pose proof (Nat.mod_upper_bound (pick dr) (dim P)). lia. }
  destruct (nth_error loc (pick dr mod dim P)) as [x|] eqn:Hx;
    [|apply nth_error_None in Hx; lia].
  rewrite (nth_error_nth_0 _ _ _ Hx).
  unfold propose. destruct (bounded P) eqn:Hb.
  - rewrite resample_skip; auto.
    apply resample_hit; auto; [lia|].
    intros _. specialize (Hpass eq_refl). unfold passes in Hpass.
    rewrite Hx in Hpass. now apply in_unit_true.
  - rewrite (Hun eq_refl). cbn [app].
    apply resample_hit; auto; [lia|]. rewrite Hb. discriminate.
Qed.

Lemma proposal_returns_first_passing_draw_witness :
  propose {| dim := 1; delta := 1 / 2; bounded := true |} [1]
          ([{| up_sign := true; pick := 0 |}]
           ++ {| up_sign := false; pick := 0 |} :: [])
  = Ret (set_nth (0 mod 1) (nth (0 mod 1) [1] 0 + - (1 / 2)) [1]).
Proof.
  apply (proposal_returns_first_passing_draw
           {| dim := 1; delta := 1 / 2; bounded := true |} [1]
           [{| up_sign := true; pick := 0 |}] []
           {| up_sign := false; pick := 0 |}).
  - cbn; lia.
  - intros _. constructor; [|constructor].
    unfold passes; cbn. apply in_unit_false. lra.
  - discriminate.
  - intros _. unfold passes; cbn. apply in_unit_true. lra.
Defined.



(** X3: the errors of a call.  With [dim = 0] the first [randint] raises
    ValueError; with [0 < dim <= len(loc)] no call raises; with
    [dim > len(loc)] a draw of index [len(loc)] raises IndexError. *)
Theorem proposal_errors (P : PolicyWalkProposal) (loc : vec) :
  (dim P = 0%nat ->
   forall dr rest, propose P loc (dr :: rest) = Raise ValueError) /\
  ((0 < dim P <= length loc)%nat ->
   forall draws e, propose P loc draws <> Raise e) /\
  ((length loc < dim P)%nat ->
   forall s rest,
     propose P loc ({| up_sign := s; pick := length loc |} :: rest)
     = Raise IndexError).
Proof.
  unfold propose. split; [|split].
  - intros H0 dr rest. cbn [resample]. now rewrite H0.
  - intros Hd draws e. induction draws as [|dr rest IH]; cbn [resample].
    + discriminate.
    + destruct (dim P) eqn:E; [lia|]. rewrite <- E in *.
      destruct (nth_error loc (pick dr mod dim P)) as [x|] eqn:Hx.
      * destruct (bounded P); [|discriminate].
        destruct (in_unit (x + step_of P dr)); [discriminate|exact IH].
      * apply nth_error_None in Hx.
        pose proof (Nat.mod_upper_bound (pick dr) (dim P)). lia.
  - intros Hlt s rest. cbn [resample pick].
    destruct (dim P) eqn:E; [lia|]. rewrite <- E in Hlt |- *.
    rewrite Nat.mod_small by exact Hlt.
    now rewrite (proj2 (nth_error_None loc (length loc))) by lia.
Qed.

(** * Further properties of the acceptance ratio *)

Lemma cross_gaps_nil beta QE QPi :
  cross_gaps beta QE QPi = [] <-> QE = [] \/ concat QPi = [].
Proof.
  unfold cross_gaps. split.
  - destruct QE as [|q_e t]; [now left|]. cbn [flat_map]. intros H.
    apply app_eq_nil in H. destruct H as [H _].
    right. now apply map_eq_nil in H.
  - intros [-> | H]; [reflexivity|]. rewrite H.
    induction QE as [|q_e t IH]; auto.
Qed.

Lemma logsumexp_raises z : logsumexp z = Raise ValueError <-> z = [].
Proof. destruct z; cbn; split; congruence. Qed.

Lemma logsumexp_returns z : returns (logsumexp z) <-> z <> [].
Proof.
  destruct z; cbn; split; try congruence.
  - intros [a Ha]; discriminate.
  - intros _. eexists; reflexivity.
Qed.

(** X4: [_mh_ratio] raises ValueError exactly when one of its two flat
    lists is empty, that is when [QE] or [QE_new] is empty or [QPi] or
    [QPi_new] holds no quality at all; in every other case it returns. *)
Theorem mh_ratio_raises_iff_a_side_is_empty
  (log_p : vec -> list R) (self : TBIRLPolicyWalk) (r r_new : vec)
  (QE QE_new : list R) (QPi QPi_new : list (list R)) :
  (_mh_ratio log_p self r r_new QE QE_new QPi QPi_new = Raise ValueError <->
   QE = [] \/ concat QPi = [] \/ QE_new = [] \/ concat QPi_new = []) /\
  (returns (_mh_ratio log_p self r r_new QE QE_new QPi QPi_new) <->
   QE <> [] /\ concat QPi <> [] /\ QE_new <> [] /\ concat QPi_new <> []).
Proof.
  unfold _mh_ratio. rewrite !gaps_cross.
  pose proof (cross_gaps_nil (_beta self) QE QPi) as H1.
  pose proof (cross_gaps_nil (_beta self) QE_new QPi_new) as H2.
  destruct (cross_gaps (_beta self) QE QPi) as [|a z];
    destruct (cross_gaps (_beta self) QE_new QPi_new) as [|b z'];
    cbn [logsumexp bind].
  - split.
    + split; [intros _|reflexivity]. destruct (proj1 H1 eq_refl); auto.
    + split; [intros [v Hv]; discriminate|].
      intros (A & B & _). destruct (proj1 H1 eq_refl); contradiction.
  - split.
    + split; [intros _|reflexivity]. destruct (proj1 H1 eq_refl); auto.
    + split; [intros [v Hv]; discriminate|].
      intros (A & B & _). destruct (proj1 H1 eq_refl); contradiction.
  - split.
    + split; [intros _|reflexivity]. destruct (proj1 H2 eq_refl); auto.
    + split; [intros [v Hv]; discriminate|].
      intros (_ & _ & A & B). destruct (proj1 H2 eq_refl); contradiction.
  - split.
    + split; [discriminate|].
      intros [A|[A|[A|A]]].
      * assert (C : a :: z = []) by (apply H1; auto). discriminate.
      * assert (C : a :: z = []) by (apply H1; auto). discriminate.
      * assert (C : b :: z' = []) by (apply H2; auto). discriminate.
      * assert (C : b :: z' = []) by (apply H2; auto). discriminate.
    + split; [intros _|intros _; eexists; reflexivity].
      repeat split; intros A.
      * assert (C : a :: z = []) by (apply H1; auto). discriminate.
      * assert (C : a :: z = []) by (apply H1; auto). discriminate.
      * assert (C : b :: z' = []) by (apply H2; auto). discriminate.
      * assert (C : b :: z' = []) by (apply H2; auto). discriminate.
Qed.

Lemma cross_gaps_shift beta c QE QPi :
  cross_gaps beta (map (Rplus c) QE) (map (map (Rplus c)) QPi)
  = cross_gaps beta QE QPi.
Proof.
  unfold cross_gaps. rewrite <- concat_map.
  induction QE as [|q_e t IH]; cbn [map flat_map]; auto.
  rewrite IH. f_equal. rewrite map_map. apply map_ext. intros q. ring.
Qed.

(** X5: adding one constant to every expert quality and every generated
    quality of a side (the current one, the proposed one, or both, each with
    its own constant) leaves the ratio unchanged: only the gaps count. *)
Theorem mh_ratio_ignores_a_common_shift
  (log_p : vec -> list R) (self : TBIRLPolicyWalk) (r r_new : vec)
  (QE QE_new : list R) (QPi QPi_new : list (list R)) (c c_new : R) :
  _mh_ratio log_p self r r_new
            (map (Rplus c) QE) (map (Rplus c_new) QE_new)
            (map (map (Rplus c)) QPi) (map (map (Rplus c_new)) QPi_new)
  = _mh_ratio log_p self r r_new QE QE_new QPi QPi_new.
Proof.
  unfold _mh_ratio. rewrite !gaps_cross, !cross_gaps_shift. reflexivity.
Qed.

(** * TBIRLOpt *)

Lemma map_const_pairs (c : R * R) (a n : nat) :
  map (fun _ : nat => c) (seq a n) = repeat c n.
Proof.
  revert a; induction n as [|n IH]; intros a; cbn [seq map repeat]; auto.
  now rewrite IH.
Qed.

(** X6: with [bounds=None] the box of the optimiser is one pair
    [(-rmax, rmax)] per dimension, and for [rmax > 0] the initial reward has
    one component per dimension, each inside its pair. *)
Theorem opt_initial_reward_within_default_bounds
  (trajs : Type) (g : trajs) (dim : nat) (beta rmax : R) (us : nat -> R) :
  0 < rmax -> (forall j, 0 <= us j < 1) ->
  let self := TBIRLOpt.__init__ dim beta rmax None g in
  TBIRLOpt._bounds self = repeat (- rmax, rmax) dim /\
  length (TBIRLOpt._bounds self) = dim /\
  length (TBIRLOpt.initialize_reward dim self us) = dim /\
  Forall (fun x => - rmax <= x < rmax)
         (TBIRLOpt.initialize_reward dim self us) /\
  Forall (fun xb => fst (snd xb) <= fst xb < snd (snd xb))
         (combine (TBIRLOpt.initialize_reward dim self us)
                  (TBIRLOpt._bounds self)).
Proof.
  intros Hr Hus self. unfold self, TBIRLOpt.__init__, TBIRLOpt.initialize_reward.
  cbn [TBIRLOpt._bounds TBIRLOpt._rmax].
  split; [apply map_const_pairs|].
  rewrite !length_map, !length_seq. repeat split.
  - apply Forall_map, Forall_forall. intros j _.
    unfold IterativeBirl.np_uniform. specialize (Hus j). nra.
  - generalize 0%nat. induction dim as [|n IH]; intros a; cbn [seq map combine].
    + constructor.
    + constructor; [|apply IH].
      cbn [fst snd]. unfold IterativeBirl.np_uniform. specialize (Hus a). nra.
Qed.

Lemma opt_initial_reward_within_default_bounds_witness :
  TBIRLOpt._bounds (TBIRLOpt.__init__ 2 (9 / 10) 1 None tt)
  = repeat (- (1), 1) 2 /\
  Forall (fun xb => fst (snd xb) <= fst xb < snd (snd xb))
         (combine (TBIRLOpt.initialize_reward 2
                     (TBIRLOpt.__init__ 2 (9 / 10) 1 None tt) (fun _ => 1 / 2))
                  (TBIRLOpt._bounds (TBIRLOpt.__init__ 2 (9 / 10) 1 None tt))).
Proof.
  assert (Hr : 0 < 1) by lra.
  assert (Hu : forall j : nat, 0 <= (fun _ : nat => 1 / 2) j < 1) by (intros _; lra).
  destruct (opt_initial_reward_within_default_bounds
              unit tt 2 (9 / 10) 1 (fun _ => 1 / 2) Hr Hu)
    as (H1 & _ & _ & _ & H5).
  split; [exact H1 | exact H5].
Defined.

(** X7: one evaluation of the objective of TBIRLOpt appends exactly one
    loss to [qloss], also when it raises; it raises ValueError exactly when
    the flat list is empty; and at the same qualities and [beta] its value
    is the logsumexp whose negation is the likelihood term [lk] of
    [_mh_ratio]. *)
Theorem neg_loglk_records_loss_and_matches_mh_ratio
  (trajs : Type)
  (_expert_trajectory_quality : vec -> list R)
  (_generated_trajectory_quality : vec -> trajs -> list (list R))
  (_loss : list R -> list (list R) -> R)
  (self : TBIRLOpt.t trajs) (r : vec) :
  let QE := _expert_trajectory_quality r in
  let QPi := _generated_trajectory_quality r (TBIRLOpt.g_trajs self) in
  let res := TBIRLOpt._neg_loglk _expert_trajectory_quality
               _generated_trajectory_quality _loss self r in
  TBIRLOpt.qloss (fst res) = TBIRLOpt.qloss self ++ [_loss QE QPi] /\
  (snd res = Raise ValueError <-> QE = [] \/ concat QPi = []) /\
  (forall (log_p : vec -> list R) (pw : TBIRLPolicyWalk) (r' r_new : vec) v,
     _beta pw = TBIRLOpt._beta self ->
     _mh_ratio log_p pw r' r_new QE QE QPi QPi = Ret v ->
     exists l, snd res = Ret l /\
               v = np_div (- l + np_sum (log_p r_new)) (- l + np_sum (log_p r'))).
Proof.
  intros QE QPi res. unfold res, TBIRLOpt._neg_loglk.
  cbn [fst snd TBIRLOpt.qloss]. fold QE QPi.
  split; [reflexivity|]. split.
  - rewrite logsumexp_raises, gaps_cross. apply cross_gaps_nil.
  - intros log_p pw r' r_new v Hbeta. unfold _mh_ratio. rewrite Hbeta.
    destruct (logsumexp (gaps (TBIRLOpt._beta self) QE QPi)) as [l| |];
      cbn [bind]; try discriminate.
    intros H; injection H as <-. exists l. auto.
Qed.

(** * Further properties of [_policy_walk] *)

Lemma iterative_mean_in_box m r step :
  (1 <= step)%Z -> in_box m -> in_box r ->
  in_box (_iterative_reward_mean m r step).
Proof.
  intros Hs Hm. apply IZR_le in Hs.
  assert (Ht : 0 < / IZR step <= 1).
  { split; [apply Rinv_0_lt_compat; lra|].
    rewrite <- Rinv_1. apply Rinv_le_contravar; lra. }
  unfold _iterative_reward_mean, in_box. revert r.
  induction Hm as [|x m Hx Hm IH]; intros r Hr; cbn [combine map].
  - constructor.
  - destruct r as [|y r]; cbn [map]; [constructor|].
    inversion Hr as [|? ? Hy Hr']; subst.
    constructor; [|now apply IH].
    cbn [fst snd].
    replace ((IZR step - 1) / IZR step * x + 1 / IZR step * y)
      with ((1 - / IZR step) * x + / IZR step * y) by (field; lra).
    split; nra.
Qed.

Lemma threaded_rejected m evs :
  threaded m evs -> Forall (fun ev => ev_accepted ev = false) evs ->
  final_mean m evs = m.
Proof.
  revert m. induction evs as [|ev rest IH]; intros m Ht Hrej; auto.
  destruct Ht as [Hr Ht]. inversion Hrej as [|? ? He Hrest]; subst.
  unfold final_mean in *. cbn [fold_left].
  assert (Hafter : ev_r_after ev = ev_r ev) by (unfold ev_r_after; now rewrite He).
  rewrite Hafter in *. now apply IH.
Qed.

Lemma final_mean_last m evs ev :
  final_mean m (evs ++ [ev]) = ev_r_after ev.
Proof. unfold final_mean. now rewrite fold_left_app. Qed.

Section WalkLog.

Variable trajs : Type.
Variable _expert_trajectory_quality : vec -> list R.
Variable _generated_trajectory_quality : vec -> trajs -> list (list R).
Variable log_p : vec -> list R.
Variable _prior : vec -> list R.
Variable rdim : nat.
Variable self : TBIRLPolicyWalk.
Variable g_trajs : trajs.
Variable rnd : randomness.

Local Notation "'body_'" :=
  (body trajs _expert_trajectory_quality _generated_trajectory_quality log_p
        self g_trajs rnd).
Local Notation "'loop_'" :=
  (loop trajs _expert_trajectory_quality _generated_trajectory_quality log_p
        self g_trajs rnd).
Local Notation "'enter_'" :=
  (enter trajs _expert_trajectory_quality _generated_trajectory_quality _prior
         rdim self g_trajs rnd).
Local Notation "'walk_run_'" :=
  (walk_run trajs _expert_trajectory_quality _generated_trajectory_quality
            log_p _prior rdim self g_trajs rnd).
Local Notation "'policy_walk_'" :=
  (_policy_walk trajs _expert_trajectory_quality _generated_trajectory_quality
                log_p _prior rdim self g_trajs rnd).
Local Notation "'find_next_reward_'" :=
  (find_next_reward trajs _expert_trajectory_quality
                    _generated_trajectory_quality log_p _prior rdim self
                    g_trajs rnd).

(** What one step appends to the diagnostic lists. *)
Lemma body_log st step st' ev :
  body_ st step = Ret (st', ev) ->
  ev_r ev = r_mean st /\ ev_step ev = step /\ r_mean st' = ev_r_after ev /\
  burn_point st' = burn_point st /\ p_dist st' = p_dist st /\
  propose (p_dist st) (r_mean st) (step_draws rnd step) = Ret (ev_r_new ev) /\
  qloss (fdata st') = qloss (fdata st) /\
  iter_rewards (fdata st') = iter_rewards (fdata st) /\
  accept_ratios (fdata st')
    = accept_ratios (fdata st) ++ (if ev_accepted ev then [1%Z] else []) /\
  trace (fdata st')
    = trace (fdata st)
      ++ (if (step >? burn_point st)%Z then [ev_r_after ev] else []) /\
  walk (fdata st')
    = walk (fdata st)
      ++ (if (step >? burn_point st)%Z then [ev_r_new ev] else []).
Proof.
  unfold body.
  destruct (propose (p_dist st) (r_mean st) (step_draws rnd step))
    as [r_new| |] eqn:Hp; cbn [bind]; try discriminate.
  destruct (_mh_ratio log_p self (r_mean st) r_new (QE st)
              (_expert_trajectory_quality r_new) (QPi st)
              (_generated_trajectory_quality r_new g_trajs))
    as [ratio| |] eqn:Hr; cbn [bind]; try discriminate.
  intros H; injection H as <- <-. unfold ev_r_after.
  cbn [ev_step ev_r ev_r_new ev_accepted].
  destruct (np_gt (accept_probability self ratio step) (step_u rnd step));
    cbn [accept burn_point];
    destruct (step >? burn_point st)%Z;
    cbn [keep_sample accept p_dist burn_point r_mean fdata qloss trace walk
         accept_ratios iter_rewards];
    rewrite ?app_nil_r; repeat split; reflexivity.
Qed.

Lemma loop_log steps : forall st st' evs,
  loop_ steps st = Ret (st', evs) ->
  threaded (r_mean st) evs /\ r_mean st' = final_mean (r_mean st) evs /\
  map ev_step evs = steps /\
  burn_point st' = burn_point st /\ p_dist st' = p_dist st /\
  qloss (fdata st') = qloss (fdata st) /\
  iter_rewards (fdata st') = iter_rewards (fdata st) /\
  accept_ratios (fdata st')
    = accept_ratios (fdata st)
      ++ map (fun _ => 1%Z) (filter ev_accepted evs) /\
  trace (fdata st')
    = trace (fdata st) ++ map ev_r_after (kept (burn_point st) evs) /\
  walk (fdata st')
    = walk (fdata st) ++ map ev_r_new (kept (burn_point st) evs).
Proof.
  induction steps as [|step rest IH]; intros st st' evs; cbn [loop].
  - intros H; injection H as <- <-. cbn. rewrite !app_nil_r.
    repeat split; reflexivity.
  - destruct (body_ st step) as [[st1 ev]| |] eqn:Hb; cbn [bind fst snd];
      try discriminate.
    destruct (loop_ rest st1) as [[st2 evs2]| |] eqn:Hl; cbn [bind fst snd];
      try discriminate.
    intros H; injection H as <- <-.
    apply body_log in Hb.
    destruct Hb as (B1 & B2 & B3 & B4 & B5 & _ & B7 & B8 & B9 & B10 & B11).
    destruct (IH _ _ _ Hl) as (L1 & L2 & L3 & L4 & L5 & L6 & L7 & L8 & L9 & L10).
    unfold kept in *. cbn [threaded map filter]. unfold final_mean in *.
    cbn [fold_left]. rewrite B2, B4 in *. rewrite <- B3.
    repeat split; try congruence.
    + rewrite L8, B9. destruct (ev_accepted ev); cbn [map app];
        now rewrite <- ?app_assoc, ?app_nil_r.
    + rewrite L9, B10. destruct (step >? burn_point st)%Z; cbn [map app];
        rewrite <- ?app_assoc, ?app_nil_r; cbn [app]; congruence.
    + rewrite L10, B11. destruct (step >? burn_point st)%Z; cbn [map app];
        rewrite <- ?app_assoc, ?app_nil_r; cbn [app]; congruence.
Qed.

Lemma enter_data st0 :
  enter_ = Ret st0 ->
  initialize_reward _prior rdim self (init_picks rnd) = Ret (r_mean st0) /\
  p_dist st0 = {| dim := length (r_mean st0); delta := _delta self;
                  bounded := true |} /\
  QE st0 = _expert_trajectory_quality (r_mean st0) /\
  burn_point st0 = burn_threshold self /\
  qloss (fdata st0)
    = qloss (data self)
      ++ [qloss_of (_expert_trajectory_quality (r_mean st0))
                   (_generated_trajectory_quality (r_mean st0) g_trajs)] /\
  trace (fdata st0) = trace (data self) /\
  walk (fdata st0) = walk (data self) /\
  accept_ratios (fdata st0) = accept_ratios (data self) /\
  iter_rewards (fdata st0) = iter_rewards (data self).
Proof.
  unfold enter.
  destruct (initialize_reward _prior rdim self (init_picks rnd)) as [r| |];
    cbn [bind]; try discriminate.
  intros H; injection H as <-. cbn. repeat split; reflexivity.
Qed.

(** The result of a call in terms of the final frame of its run. *)
Lemma policy_walk_result st evs :
  walk_run_ = Ret (st, evs) ->
  policy_walk_
  = Ret (r_mean st,
         with_data self
           {| qloss := qloss (fdata st); trace := trace (fdata st);
              walk := walk (fdata st);
              accept_ratios := accept_ratios (fdata st);
              iter_rewards := iter_rewards (fdata st) ++ [r_mean st] |}).
Proof. intros H. unfold _policy_walk. now rewrite H. Qed.

Lemma run_of_find_next_reward res self' :
  find_next_reward_ = Ret (res, self') ->
  exists st evs,
    walk_run_ = Ret (st, evs) /\ res = r_mean st /\
    self' = with_data self
              {| qloss := qloss (fdata st); trace := trace (fdata st);
                 walk := walk (fdata st);
                 accept_ratios := accept_ratios (fdata st);
                 iter_rewards := iter_rewards (fdata st) ++ [r_mean st] |}.
Proof.
  unfold find_next_reward, _policy_walk.
  destruct walk_run_ as [[st evs]| |]; cbn [bind fst]; try discriminate.
  intros H; injection H as <- <-. exists st, evs. repeat split; reflexivity.
Qed.

(** The whole run: what the frame after the loop holds, in terms of the
    initial reward and the log. *)
Lemma run_log st evs :
  walk_run_ = Ret (st, evs) ->
  exists r0,
    initialize_reward _prior rdim self (init_picks rnd) = Ret r0 /\
    threaded r0 evs /\ r_mean st = final_mean r0 evs /\
    map ev_step evs = range1 (_mcmc_iter self) /\
    qloss (fdata st)
      = qloss (data self)
        ++ [qloss_of (_expert_trajectory_quality r0)
                     (_generated_trajectory_quality r0 g_trajs)] /\
    iter_rewards (fdata st) = iter_rewards (data self) /\
    accept_ratios (fdata st)
      = accept_ratios (data self)
        ++ map (fun _ => 1%Z) (filter ev_accepted evs) /\
    trace (fdata st)
      = trace (data self) ++ map ev_r_after (kept (burn_threshold self) evs) /\
    walk (fdata st)
      = walk (data self) ++ map ev_r_new (kept (burn_threshold self) evs).
Proof.
  intros Hrun. unfold walk_run in Hrun.
  destruct enter_ as [st0| |] eqn:He; cbn [bind] in Hrun; try discriminate.
  apply enter_data in He.
  destruct He as (E1 & _ & _ & E4 & E5 & E6 & E7 & E8 & E9).
  apply loop_log in Hrun.
  destruct Hrun as (L1 & L2 & L3 & _ & _ & L6 & L7 & L8 & L9 & L10).
  exists (r_mean st0). rewrite E4 in *.
  repeat split; try congruence.
Qed.

(** X8: one call of [find_next_reward] appends exactly one loss to
    [qloss] (computed at the initial reward) and exactly one entry, the
    reward it returns, to [iter_rewards]; [trace] and [walk] grow by the same
    number of entries, [accept_ratios] grows by entries equal to 1; no
    earlier entry of any list is changed, and the configuration is kept. *)
Theorem find_next_reward_only_appends (res : vec) (self' : TBIRLPolicyWalk) :
  find_next_reward_ = Ret (res, self') ->
  exists r0 t w a,
    initialize_reward _prior rdim self (init_picks rnd) = Ret r0 /\
    qloss (data self')
      = qloss (data self)
        ++ [qloss_of (_expert_trajectory_quality r0)
                     (_generated_trajectory_quality r0 g_trajs)] /\
    iter_rewards (data self') = iter_rewards (data self) ++ [res] /\
    trace (data self') = trace (data self) ++ t /\
    walk (data self') = walk (data self) ++ w /\
    length t = length w /\
    accept_ratios (data self') = accept_ratios (data self) ++ a /\
    Forall (eq 1%Z) a /\
    (_delta self', _rmax self', _mcmc_iter self', _burn self',
     _tempered self', _beta self')
    = (_delta self, _rmax self, _mcmc_iter self, _burn self,
       _tempered self, _beta self).
Proof.
  intros H. destruct (run_of_find_next_reward _ _ H) as (st & evs & Hrun & -> & ->).
  destruct (run_log _ _ Hrun) as (r0 & R1 & _ & _ & _ & R5 & R6 & R7 & R8 & R9).
  exists r0, (map ev_r_after (kept (burn_threshold self) evs)),
         (map ev_r_new (kept (burn_threshold self) evs)),
         (map (fun _ => 1%Z) (filter ev_accepted evs)).
  cbn [with_data data qloss iter_rewards trace walk accept_ratios
       _delta _rmax _mcmc_iter _burn _tempered _beta].
  repeat split; try congruence.
  - now rewrite !length_map.
  - apply Forall_map, Forall_forall. reflexivity.
Qed.

(** X9: the entries a run appends to [accept_ratios] are one per accepted
    step, so at most [mcmc_iter] of them. *)
Theorem accept_events_count_the_accepted_steps (st : frame) (evs : list event) :
  walk_run_ = Ret (st, evs) ->
  exists self',
    policy_walk_ = Ret (r_mean st, self') /\
    accept_ratios (data self')
      = accept_ratios (data self)
        ++ repeat 1%Z (length (filter ev_accepted evs)) /\
    length evs = Z.to_nat (_mcmc_iter self) /\
    (length (filter ev_accepted evs) <= Z.to_nat (_mcmc_iter self))%nat.
Proof.
  intros Hrun. eexists. split; [exact (policy_walk_result _ _ Hrun)|].
  destruct (run_log _ _ Hrun) as (r0 & _ & _ & _ & R4 & _ & _ & R7 & _).
  cbn [with_data data accept_ratios].
  assert (Hlen : length evs = Z.to_nat (_mcmc_iter self)).
  { rewrite <- (length_map ev_step), R4. unfold range1.
    now rewrite length_map, length_seq. }
  split; [|split; [exact Hlen|]].
  - rewrite R7. f_equal. clear.
    induction (filter ev_accepted evs) as [|e l IH]; cbn; congruence.
  - rewrite <- Hlen. apply filter_length_le.
Qed.

Lemma range1_last (N : Z) :
  (1 <= N)%Z -> exists pre, range1 N = pre ++ [N].
Proof.
  intros HN. unfold range1.
  destruct (Z.to_nat N) as [|n] eqn:E; [lia|].
  rewrite seq_S, map_app. cbn [map]. eexists. f_equal. f_equal. lia.
Qed.

(** X10: the entries a run appends to [walk] are the proposals of the steps
    past the burn threshold, in order, and the entries it appends to [trace]
    are the running means those steps left; when the threshold is below
    [mcmc_iter >= 1], the last entry of [trace] is the reward returned. *)
Theorem trace_and_walk_hold_the_kept_steps (st : frame) (evs : list event) :
  walk_run_ = Ret (st, evs) ->
  exists self',
    policy_walk_ = Ret (r_mean st, self') /\
    map ev_step evs = range1 (_mcmc_iter self) /\
    walk (data self')
      = walk (data self) ++ map ev_r_new (kept (burn_threshold self) evs) /\
    trace (data self')
      = trace (data self) ++ map ev_r_after (kept (burn_threshold self) evs) /\
    ((1 <= _mcmc_iter self)%Z ->
     (burn_threshold self < _mcmc_iter self)%Z ->
     last (trace (data self')) [] = r_mean st).
Proof.
  intros Hrun. eexists. split; [exact (policy_walk_result _ _ Hrun)|].
  destruct (run_log _ _ Hrun) as (r0 & _ & _ & R3 & R4 & _ & _ & _ & R8 & R9).
  cbn [with_data data trace walk].
  repeat split; auto.
  intros HN Hbp.
  destruct (range1_last _ HN) as [pre Hpre].
  destruct (exists_last (l := evs)) as (evs' & ev & ->).
  { intros ->. rewrite Hpre in R4. destruct pre; discriminate. }
  rewrite Hpre, map_app in R4. cbn [map] in R4.
  apply app_inj_tail in R4. destruct R4 as [_ Hstep].
  rewrite R8, R3, final_mean_last. unfold kept.
  rewrite filter_app. cbn [filter]. rewrite Hstep.
  rewrite (proj2 (Z.gtb_lt _ _)) by lia.
  rewrite map_app, app_assoc. cbn [map]. apply last_last.
Qed.

(** X11: when no step of a run accepts its sample, the reward returned
    is the initial reward and nothing is appended to [accept_ratios]. *)
Theorem all_rejected_returns_the_initial_reward (st : frame) (evs : list event) :
  walk_run_ = Ret (st, evs) ->
  Forall (fun ev => ev_accepted ev = false) evs ->
  initialize_reward _prior rdim self (init_picks rnd) = Ret (r_mean st) /\
  exists self',
    policy_walk_ = Ret (r_mean st, self') /\
    accept_ratios (data self') = accept_ratios (data self).
Proof.
  intros Hrun Hrej.
  destruct (run_log _ _ Hrun) as (r0 & R1 & R2 & R3 & _ & _ & _ & R7 & _).
  rewrite (threaded_rejected _ _ R2 Hrej) in R3. subst r0.
  split; [exact R1|].
  eexists. split; [exact (policy_walk_result _ _ Hrun)|].
  cbn [with_data data accept_ratios]. rewrite R7.
  replace (filter ev_accepted evs) with (@nil event); [apply app_nil_r|].
  clear - Hrej. induction Hrej as [|ev l He _ IH]; cbn [filter]; auto.
  now rewrite He.
Qed.

(** X12: with [mcmc_iter = 1] the run makes exactly one proposal, and the
    reward returned is that proposal when it is accepted and the initial
    reward when it is not. *)
Theorem single_step_returns_proposal_or_initial_reward
  (st : frame) (evs : list event) :
  _mcmc_iter self = 1%Z ->
  walk_run_ = Ret (st, evs) ->
  exists r0 ev,
    initialize_reward _prior rdim self (init_picks rnd) = Ret r0 /\
    evs = [ev] /\ ev_r ev = r0 /\
    propose {| dim := length r0; delta := _delta self; bounded := true |}
            r0 (step_draws rnd 1) = Ret (ev_r_new ev) /\
    r_mean st = (if ev_accepted ev then ev_r_new ev else r0).
Proof.
  intros HN Hrun. unfold walk_run in Hrun. rewrite HN in Hrun.
  destruct enter_ as [st0| |] eqn:He; cbn [bind] in Hrun; try discriminate.
  apply enter_data in He. destruct He as (E1 & E2 & _).
  change (range1 1) with [1%Z] in Hrun. cbn [loop] in Hrun.
  destruct (body_ st0 1%Z) as [[st1 ev]| |] eqn:Hb; cbn [bind fst snd] in Hrun;
    try discriminate.
  injection Hrun as <- <-.
  apply body_log in Hb.
  destruct Hb as (B1 & B2 & B3 & _ & _ & B6 & _).
  rewrite E2 in B6.
  exists (r_mean st0), ev. repeat split; auto.
  rewrite B3. unfold ev_r_after. rewrite B1, B2.
  destruct (ev_accepted ev); auto.
  apply iterative_mean_first. symmetry. eapply propose_length; eauto.
Qed.

Lemma loop_in_box steps : forall st st' evs,
  Forall (fun s => (1 <= s)%Z) steps ->
  bounded (p_dist st) = true -> in_box (r_mean st) ->
  loop_ steps st = Ret (st', evs) ->
  in_box (r_mean st') /\
  Forall (fun ev => in_box (ev_r_new ev) /\ in_box (ev_r_after ev)) evs.
Proof.
  induction steps as [|step rest IH]; intros st st' evs Hs Hb Hbox; cbn [loop].
  - intros H; injection H as <- <-. auto.
  - inversion Hs as [|? ? Hstep Hrest]; subst.
    destruct (body_ st step) as [[st1 ev]| |] eqn:Hbody; cbn [bind fst snd];
      try discriminate.
    destruct (loop_ rest st1) as [[st2 evs2]| |] eqn:Hl; cbn [bind fst snd];
      try discriminate.
    intros H; injection H as <- <-.
    apply body_log in Hbody.
    destruct Hbody as (B1 & B2 & B3 & _ & B5 & B6 & _).
    assert (Hnew : in_box (ev_r_new ev)) by (eapply propose_in_box; eauto).
    assert (Hafter : in_box (ev_r_after ev)).
    { unfold ev_r_after. rewrite B1, B2.
      destruct (ev_accepted ev); auto. now apply iterative_mean_in_box. }
    destruct (IH st1 st2 evs2) as (I1 & I2); auto; try congruence.
Qed.

(** X13: for [0 < reward_max <= 1], [delta > 0] and no tempering, every
    reward a call of [find_next_reward] returns lies in the unit box, and so
    do all the entries it appends to [trace] and [walk]. *)
Theorem find_next_reward_stays_in_unit_box (res : vec) (self' : TBIRLPolicyWalk) :
  0 < _rmax self <= 1 -> 0 < _delta self -> _tempered self = false ->
  find_next_reward_ = Ret (res, self') ->
  in_box res /\
  (Forall in_box (trace (data self)) -> Forall in_box (trace (data self'))) /\
  (Forall in_box (walk (data self)) -> Forall in_box (walk (data self'))).
Proof.
  intros Hr Hd Ht H.
  destruct (run_of_find_next_reward _ _ H) as (st & evs & Hrun & -> & ->).
  destruct (run_log _ _ Hrun) as (r0 & R1 & _ & _ & _ & _ & _ & _ & R8 & R9).
  cbn [with_data data trace walk]. rewrite R8, R9.
  unfold walk_run in Hrun.
  destruct enter_ as [st0| |] eqn:He; cbn [bind] in Hrun; try discriminate.
  apply enter_data in He. destruct He as (E1 & E2 & _).
  assert (Hbox0 : in_box (r_mean st0)).
  { destruct (initialize_reward_grid _prior rdim self (init_picks rnd))
      as (r & Hr0 & _ & HF); try lra; auto.
    rewrite E1 in Hr0. injection Hr0 as <-.
    eapply Forall_impl; [|exact HF]. cbn. intros x [_ Hx]. lra. }
  apply loop_in_box in Hrun; auto.
  - destruct Hrun as (Hres & Hevs). split; [exact Hres|].
    assert (Hkept : Forall (fun ev => in_box (ev_r_new ev) /\ in_box (ev_r_after ev))
                      (kept (burn_threshold self) evs)).
    { rewrite Forall_forall in *. intros ev Hin. apply Hevs.
      unfold kept in Hin. now apply filter_In in Hin. }
    split; intros Hold; apply Forall_app; split; auto; apply Forall_map;
      eapply Forall_impl; [| exact Hkept | | exact Hkept]; cbn; tauto.
  - unfold range1. apply Forall_forall. intros s Hs.
    apply in_map_iff in Hs. destruct Hs as (k & <- & Hk).
    apply in_seq in Hk. lia.
  - now rewrite E2.
Qed.

(** X14: when the expert quality list at the initial reward is empty,
    [mcmc_iter >= 1] and the first proposal returns, the call raises the
    ValueError of logsumexp. *)
Theorem no_expert_quality_raises_value_error (r0 r_new : vec) :
  initialize_reward _prior rdim self (init_picks rnd) = Ret r0 ->
  _expert_trajectory_quality r0 = [] ->
  (1 <= _mcmc_iter self)%Z ->
  propose {| dim := length r0; delta := _delta self; bounded := true |}
          r0 (step_draws rnd 1) = Ret r_new ->
  policy_walk_ = Raise ValueError.
Proof.
  intros Hinit HQE HN Hp.
  unfold _policy_walk, walk_run, enter. rewrite Hinit. cbn [bind].
  unfold range1. destruct (Z.to_nat (_mcmc_iter self)) as [|n] eqn:E; [lia|].
  cbn [seq map loop]. change (Z.of_nat 1) with 1%Z.
  unfold body. cbn [p_dist r_mean QE QPi]. rewrite Hp. cbn [bind].
  rewrite HQE. unfold _mh_ratio. cbn [gaps fold_left logsumexp bind].
  reflexivity.
Qed.

(** X15: with [mcmc_iter <= 0] the loop body never runs: the call returns
    the initial reward, appends it to [iter_rewards], and leaves [trace],
    [walk] and [accept_ratios] as they were. *)
Theorem no_iterations_returns_the_initial_reward (r0 : vec) :
  (_mcmc_iter self <= 0)%Z ->
  initialize_reward _prior rdim self (init_picks rnd) = Ret r0 ->
  exists self',
    policy_walk_ = Ret (r0, self') /\
    iter_rewards (data self') = iter_rewards (data self) ++ [r0] /\
    trace (data self') = trace (data self) /\
    walk (data self') = walk (data self) /\
    accept_ratios (data self') = accept_ratios (data self).
Proof.
  intros HN Hinit.
  unfold _policy_walk, walk_run, enter. rewrite Hinit. cbn [bind].
  unfold range1. replace (Z.to_nat (_mcmc_iter self)) with 0%nat by lia.
  cbn [seq map loop bind fst r_mean fdata].
  eexists. split; [reflexivity|]. cbn. repeat split; reflexivity.
Qed.

(** X16: with the default [burn = 0.2] and fewer than 500 steps the burn
    threshold is 0, so the call keeps the sample of every step: [trace]
    grows by [mcmc_iter] entries. *)
Theorem default_burn_discards_nothing (res : vec) (self' : TBIRLPolicyWalk) :
  _burn self = 2 / 10 -> (0 <= _mcmc_iter self < 500)%Z ->
  policy_walk_ = Ret (res, self') ->
  burn_threshold self = 0%Z /\
  length (trace (data self'))
    = (length (trace (data self)) + Z.to_nat (_mcmc_iter self))%nat /\
  length (walk (data self'))
    = (length (walk (data self)) + Z.to_nat (_mcmc_iter self))%nat.
Proof.
  intros Hburn HN Hpw.
  assert (H0 : 0 <= IZR (_mcmc_iter self) < 500).
  { split; [apply IZR_le|apply IZR_lt]; lia. }
  assert (HB : burn_threshold self = 0%Z).
  { unfold burn_threshold. rewrite Hburn, py_int_nonneg by lra.
    apply Zfloor_eq. simpl. lra. }
  split; [exact HB|].
  assert (Hrun : exists st evs, walk_run_ = Ret (st, evs) /\
                   trace (data self') = trace (fdata st) /\
                   walk (data self') = walk (fdata st)).
  { unfold _policy_walk in Hpw.
    destruct walk_run_ as [[st evs]| |]; cbn [bind fst] in Hpw; try discriminate.
    injection Hpw as <- <-. exists st, evs. repeat split; reflexivity. }
  destruct Hrun as (st & evs & Hrun & Ht & Hw).
  destruct (run_log _ _ Hrun) as (r0 & _ & _ & _ & R4 & _ & _ & _ & R8 & R9).
  assert (Hk : length (kept (burn_threshold self) evs)
               = Z.to_nat (_mcmc_iter self)).
  { unfold kept.
    rewrite <- (length_map ev_step).
    rewrite <- (@filter_map_swap _ _ (fun s => (s >? burn_threshold self)%Z)
                                ev_step evs), R4, HB.
    unfold range1. rewrite count_above_threshold by lia. cbn. lia. }
  rewrite Ht, Hw, R8, R9, !length_app, !length_map, Hk. split; reflexivity.
Qed.

End WalkLog.

(** * Further properties of [initialize_reward] *)

(** For [rmax > 0] and [delta > 0] the draw of inference_mcmc.py, written
    out: component [j] is grid point [picks j mod m] of a grid of
    [m = int(rmax / delta + 1) >= 1] points. *)
Lemma initialize_reward_values (_prior : vec -> list R) (rdim : nat)
  (self : TBIRLPolicyWalk) (picks : nat -> nat) :
  0 < _rmax self -> 0 < _delta self ->
  let m := Z.to_nat (Zfloor (_rmax self / _delta self + 1)) in
  let r := map (fun j => - _rmax self + INR (picks j mod m) * _delta self)
               (seq 0 rdim) in
  (1 <= m)%nat /\
  INR m <= _rmax self / _delta self + 1 < INR m + 1 /\
  initialize_reward _prior rdim self picks
  = if _tempered self
    then mapM (fun _ => py_max (_prior r)) (seq 0 rdim)
    else Ret r.
Proof.
  intros Hr Hd m r.
  set (q := _rmax self / _delta self) in *.
  assert (Hq : 0 < q) by (unfold q; now apply Rdiv_lt_0_compat).
  assert (Hn1 : (1 <= Zfloor (q + 1))%Z) by (apply Zfloor_lub; lra).
  pose proof (Zfloor_bound (q + 1)) as Hb.
  assert (Hm : INR m = IZR (Zfloor (q + 1))).
  { unfold m. rewrite INR_IZR_INZ. f_equal. lia. }
  split; [unfold m; lia|]. split; [rewrite Hm; exact Hb|].
  unfold initialize_reward, py_div.
  destruct (Req_dec_T (_delta self) 0) as [E|_]; [lra|]. cbn [bind].
  fold q. rewrite py_int_nonneg by lra. fold m.
  rewrite (mapM_ret _ (fun j => - _rmax self + INR (picks j mod m) * _delta self)).
  - reflexivity.
  - intros j _. unfold randrange.
    destruct (Zfloor (q + 1) <=? 0)%Z eqn:E; [apply Z.leb_le in E; lia|].
    cbn [bind]. unfold range. fold m.
    rewrite (nth_error_grid (fun i => - _rmax self + INR i * _delta self));
      [reflexivity|].
    apply Nat.mod_upper_bound. unfold m. lia.
Qed.

(** X17: with tempering the initial reward of inference_mcmc.py has all
    its [rdim] components equal to one number [m]: the maximum of the prior
    evaluated at [r], where [r] is the reward the same call returns with
    tempering switched off (the grid draw of the same random indices); when
    the prior returns an empty array and [rdim >= 1] the call raises
    ValueError. *)
Theorem tempered_initial_reward_is_constant
  (_prior : vec -> list R) (rdim : nat) (self : TBIRLPolicyWalk)
  (picks : nat -> nat) :
  0 < _rmax self -> 0 < _delta self -> _tempered self = true ->
  exists r,
    initialize_reward _prior rdim (untempered self) picks = Ret r /\
    length r = rdim /\
    r = map (fun j => - _rmax self
                      + INR (picks j
                             mod Z.to_nat (Zfloor (_rmax self / _delta self + 1)))
                        * _delta self)
            (seq 0 rdim) /\
    (forall m, py_max (_prior r) = Ret m ->
               initialize_reward _prior rdim self picks = Ret (repeat m rdim)) /\
    (_prior r <> [] -> exists m, py_max (_prior r) = Ret m) /\
    (_prior r = [] -> (1 <= rdim)%nat ->
     initialize_reward _prior rdim self picks = Raise ValueError) /\
    (_prior r = [] -> rdim = 0%nat ->
     initialize_reward _prior rdim self picks = Ret []).
Proof.
  intros Hr Hd Ht.
  destruct (initialize_reward_values _prior rdim self picks Hr Hd) as (_ & _ & Hinit).
  destruct (initialize_reward_values _prior rdim (untempered self) picks Hr Hd)
    as (_ & _ & Hun).
  rewrite Ht in Hinit. cbn [untempered _tempered _rmax _delta] in Hun.
  eexists. split; [exact Hun|]. split; [now rewrite length_map, length_seq|].
  split; [reflexivity|].
  rewrite Hinit.
  match goal with |- context [_prior (map ?f ?l)] => set (r0 := map f l) end.
  repeat split.
  - intros m Hm. rewrite (mapM_ret _ (fun _ => m)) by (intros; exact Hm).
    f_equal. now apply map_const_seq.
  - intros Hne. destruct (_prior r0) as [|x xs]; [congruence|].
    eexists; reflexivity.
  - intros Hnil Hdim. rewrite Hnil.
    destruct rdim as [|n]; [lia|]. reflexivity.
  - intros _ ->. reflexivity.
Qed.

Lemma tempered_initial_reward_is_constant_witness :
  exists r,
    initialize_reward (fun r => r) 2 (untempered (sampler (1 / 2) 0 1 true))
                      (fun _ => 2%nat) = Ret r /\
    length r = 2%nat /\
    (forall m, py_max ((fun r : vec => r) r) = Ret m ->
               initialize_reward (fun r => r) 2 (sampler (1 / 2) 0 1 true)
                                 (fun _ => 2%nat) = Ret (repeat m 2)).
Proof.
  assert (Hr : 0 < _rmax (sampler (1 / 2) 0 1 true)) by (simpl; lra).
  assert (Hd : 0 < _delta (sampler (1 / 2) 0 1 true)) by (simpl; lra).
  destruct (tempered_initial_reward_is_constant
              (fun r => r) 2 (sampler (1 / 2) 0 1 true) (fun _ => 2%nat)
              Hr Hd eq_refl)
    as (r & H1 & H2 & _ & H4 & _).
  exists r. split; [exact H1|]. split; [exact H2 | exact H4].
Defined.

(** X18: for [rmax > 0] and [delta > 0], without tempering, the initial
    reward of inference_mcmc.py has every component in [[-rmax, 0]]: the grid
    ends at the last point [-rmax + i * delta] with [i * delta <= rmax], and
    each of these points is drawn for a suitable random index. *)
Theorem initial_reward_grid_covers_the_lower_half
  (_prior : vec -> list R) (rdim : nat) (self : TBIRLPolicyWalk) :
  0 < _rmax self -> 0 < _delta self -> _tempered self = false ->
  (forall picks r,
     initialize_reward _prior rdim self picks = Ret r ->
     Forall (fun x => - _rmax self <= x <= 0) r) /\
  (forall i : nat,
     INR i * _delta self <= _rmax self ->
     initialize_reward _prior rdim self (fun _ => i)
     = Ret (repeat (- _rmax self + INR i * _delta self) rdim)).
Proof.
  intros Hr Hd Ht. split.
  - intros picks r H.
    destruct (initialize_reward_values _prior rdim self picks Hr Hd)
      as (Hm1 & Hm & Hinit).
    rewrite Ht, H in Hinit. injection Hinit as ->.
    apply Forall_map, Forall_forall. intros j _.
    set (m := Z.to_nat (Zfloor (_rmax self / _delta self + 1))) in *.
    assert (Hk : (picks j mod m < m)%nat) by (apply Nat.mod_upper_bound; lia).
    assert (Hk1 : INR (picks j mod m) + 1 <= INR m).
    { rewrite <- S_INR. apply le_INR. lia. }
    pose proof (pos_INR (picks j mod m)) as Hk0.
    assert (Hq : INR (picks j mod m) * _delta self <= _rmax self).
    { apply Rmult_le_reg_r with (/ _delta self);
        [now apply Rinv_0_lt_compat|].
      rewrite Rmult_assoc, Rinv_r by lra.
      unfold Rdiv in Hm. lra. }
    split; nra.
  - intros i Hi.
    destruct (initialize_reward_values _prior rdim self (fun _ => i) Hr Hd)
      as (Hm1 & Hm & Hinit).
    rewrite Ht in Hinit. rewrite Hinit. f_equal.
    set (m := Z.to_nat (Zfloor (_rmax self / _delta self + 1))) in *.
    assert (Hlt : (i < m)%nat).
    { apply INR_lt.
      assert (INR i <= _rmax self / _delta self).
      { apply Rmult_le_reg_r with (_delta self); [lra|].
        unfold Rdiv. rewrite Rmult_assoc, Rinv_l by lra. lra. }
      lra. }
    apply map_const_seq. intros _. now rewrite Nat.mod_small.
Qed.

Lemma initial_reward_grid_covers_the_lower_half_witness :
  initialize_reward (fun r => r) 2 (sampler (1 / 2) 0 1 false) (fun _ => 2%nat)
  = Ret (repeat (- (1) + INR 2 * (1 / 2)) 2).
Proof.
  apply (initial_reward_grid_covers_the_lower_half
           (fun r => r) 2 (sampler (1 / 2) 0 1 false)).
  - simpl; lra.
  - simpl; lra.
  - reflexivity.
  - simpl; lra.
Defined.

(** X19: the errors of [initialize_reward] of inference_mcmc.py: a zero
    step size raises ZeroDivisionError, and a negative quotient
    [rmax / delta] makes the index range empty, so that the first
    [randrange] raises ValueError when [rdim >= 1]. *)
Theorem initialize_reward_errors
  (_prior : vec -> list R) (rdim : nat) (self : TBIRLPolicyWalk)
  (picks : nat -> nat) :
  (_delta self = 0 ->
   initialize_reward _prior rdim self picks = Raise ZeroDivisionError) /\
  (_delta self <> 0 -> _rmax self / _delta self < 0 -> (1 <= rdim)%nat ->
   initialize_reward _prior rdim self picks = Raise ValueError).
Proof.
  unfold initialize_reward, py_div. split.
  - intros H0. destruct (Req_dec_T (_delta self) 0); [reflexivity|contradiction].
  - intros Hne Hq Hdim.
    destruct (Req_dec_T (_delta self) 0); [contradiction|]. cbn [bind].
    set (x := _rmax self / _delta self + 1).
    assert (Hx : x < 1) by (unfold x; lra).
    assert (Hn : (py_int x <= 0)%Z).
    { unfold py_int. destruct (Rle_dec 0 x).
      - pose proof (Zfloor_bound x) as [Hb _].
        assert (IZR (Zfloor x) < 1) by lra. apply lt_IZR in H. lia.
      - pose proof (Zceil_bound x) as [Hb _].
        assert (IZR (Zceil x) < 1) by lra. apply lt_IZR in H. lia. }
    destruct rdim as [|k]; [lia|]. cbn [seq mapM]. unfold randrange.
    now rewrite (proj2 (Z.leb_le _ _) Hn).
Qed.

(** * Runs used as witnesses *)

Lemma steady_find_next_reward burn N :
  exists res self',
    find_next_reward unit flat_quality flat_generated (const_log_p (-1))
                     (fun r => r) 1 (sampler (1 / 2) burn N false) tt steady_draws
    = Ret (res, self').
Proof.
  destruct (steady_run burn N) as (st & evs & Hrun & _).
  unfold find_next_reward.
  rewrite (policy_walk_result _ _ _ _ _ _ _ _ _ _ _ Hrun).
  eexists. eexists. reflexivity.
Qed.

Lemma initial_grid_point burn N :
  exists x,
    initialize_reward (fun r => r) 1 (sampler (1 / 2) burn N false)
                      (init_picks strict_draws) = Ret [x] /\ x = 0.
Proof.
  destruct (initialize_reward_values (fun r => r) 1
              (sampler (1 / 2) burn N false) (init_picks strict_draws))
    as (Hm1 & Hm & Hinit); try (simpl; lra).
  cbn [sampler _rmax _delta _tempered] in *.
  set (m := Z.to_nat (Zfloor (1 / (1 / 2) + 1))) in *.
  assert (Hm3 : m = 3%nat).
  { unfold m. rewrite (Zfloor_eq 3); [reflexivity|]. simpl. lra. }
  rewrite Hinit, Hm3. cbn [seq map strict_draws init_picks].
  eexists. split; [reflexivity|]. simpl. lra.
Qed.

Lemma strict_body burn N st step :
  strict_frame st ->
  exists st' ev,
    body unit flat_quality flat_generated linear_log_p
         (sampler (1 / 2) burn N false) tt strict_draws st step = Ret (st', ev) /\
    ev_accepted ev = false /\ strict_frame st'.
Proof.
  intros (HP & (x & Hm & Hx) & HQE & HQPi). subst x.
  assert (Hp : propose {| dim := 1; delta := 1 / 2; bounded := true |} [0]
                 (step_draws strict_draws step) = Ret [0 + 1 / 2]).
  { unfold propose. cbn [strict_draws step_draws].
    rewrite (resample_hit _ _ _ _ 0); cbn; try lia; try reflexivity.
    intros _; lra. }
  assert (Hv : _mh_ratio linear_log_p (sampler (1 / 2) burn N false)
                 [0] [0 + 1 / 2] [0] [0] [[0]] [[0]] = Ret (Fin (1 / 2))).
  { unfold _mh_ratio. cbn [gaps fold_left app].
    rewrite logsumexp_singleton. cbn [bind].
    unfold linear_log_p, np_sum, np_div. cbn [map fold_left sampler _beta].
    destruct (Req_dec_T (- (1 * (0 - 0)) + (0 + (0 - 1))) 0); [lra|].
    do 2 f_equal. field. }
  assert (Hacc : np_gt (accept_probability (sampler (1 / 2) burn N false)
                          (Fin (1 / 2)) step) (3 / 4) = false).
  { unfold accept_probability. cbn [sampler _tempered min1].
    rewrite (proj2 (Rltb_true (1 / 2) 1)) by lra.
    cbn [np_gt]. apply Rltb_false. lra. }
  unfold body. rewrite HP, Hm, HQE, HQPi. rewrite Hp. cbn [bind].
  unfold flat_quality, flat_generated. rewrite Hv. cbn [bind].
  cbn [strict_draws step_u]. rewrite Hacc.
  eexists. eexists. split; [reflexivity|]. split; [reflexivity|].
  unfold strict_frame.
  destruct (step >? burn_point st)%Z;
    cbn [keep_sample p_dist QE QPi r_mean]; rewrite ?Hm;
    repeat split; auto; exists 0; auto.
Qed.

Lemma strict_loop burn N steps : forall st,
  strict_frame st ->
  exists st' evs,
    loop unit flat_quality flat_generated linear_log_p
         (sampler (1 / 2) burn N false) tt strict_draws steps st
    = Ret (st', evs) /\
    Forall (fun ev => ev_accepted ev = false) evs.
Proof.
  induction steps as [|step rest IH]; intros st Hst; cbn [loop].
  - exists st, []. auto.
  - destruct (strict_body burn N st step Hst) as (st1 & ev & Hb & Hrej & Hst1).
    rewrite Hb. cbn [bind fst snd].
    destruct (IH st1 Hst1) as (st2 & evs & Hl & Hall).
    rewrite Hl. cbn [bind fst snd].
    exists st2, (ev :: evs). auto.
Qed.

Lemma strict_run burn N :
  exists st evs,
    walk_run unit flat_quality flat_generated linear_log_p (fun r => r) 1
             (sampler (1 / 2) burn N false) tt strict_draws = Ret (st, evs) /\
    Forall (fun ev => ev_accepted ev = false) evs.
Proof.
  unfold walk_run, enter.
  destruct (initial_grid_point burn N) as (x & Hinit & Hx).
  rewrite Hinit. cbn [bind].
  apply strict_loop. unfold strict_frame. cbn. repeat split; auto.
  exists x. auto.
Qed.

Lemma find_next_reward_only_appends_witness :
  exists res self',
    find_next_reward unit flat_quality flat_generated (const_log_p (-1))
                     (fun r => r) 1 (sampler (1 / 2) 0 3 false) tt steady_draws
    = Ret (res, self') /\
    iter_rewards (data self') = [res] /\
    length (qloss (data self')) = 1%nat.
Proof.
  destruct (steady_find_next_reward 0 3) as (res & self' & H).
  exists res, self'. split; [exact H|].
  destruct (find_next_reward_only_appends
              unit flat_quality flat_generated (const_log_p (-1)) (fun r => r) 1
              (sampler (1 / 2) 0 3 false) tt steady_draws res self' H)
    as (r0 & t & w & a & _ & Hq & Hi & _).
  split; [exact Hi|]. rewrite Hq. reflexivity.
Defined.

Lemma accept_events_count_the_accepted_steps_witness :
  exists st evs self',
    _policy_walk unit flat_quality flat_generated (const_log_p (-1)) (fun r => r) 1
                 (sampler (1 / 2) 0 3 false) tt steady_draws
    = Ret (r_mean st, self') /\
    accept_ratios (data self') = repeat 1%Z (length (filter ev_accepted evs)) /\
    length evs = 3%nat.
Proof.
  destruct (steady_run 0 3) as (st & evs & Hrun & _).
  destruct (accept_events_count_the_accepted_steps
              unit flat_quality flat_generated (const_log_p (-1)) (fun r => r) 1
              (sampler (1 / 2) 0 3 false) tt steady_draws st evs Hrun)
    as (self' & H1 & H2 & H3 & _).
  exists st, evs, self'. split; [exact H1|]. split; [exact H2 | exact H3].
Defined.

Lemma burn_threshold_of_half burn_free :
  burn_threshold (sampler burn_free 50 4 false) = 2%Z.
Proof.
  unfold burn_threshold. cbn [sampler _mcmc_iter _burn].
  rewrite py_int_nonneg by lra. apply Zfloor_eq. simpl. lra.
Qed.

Lemma trace_and_walk_hold_the_kept_steps_witness :
  exists st evs self',
    _policy_walk unit flat_quality flat_generated (const_log_p (-1)) (fun r => r) 1
                 (sampler (1 / 2) 50 4 false) tt steady_draws
    = Ret (r_mean st, self') /\
    walk (data self')
      = map ev_r_new (kept (burn_threshold (sampler (1 / 2) 50 4 false)) evs) /\
    last (trace (data self')) [] = r_mean st.
Proof.
  destruct (steady_run 50 4) as (st & evs & Hrun & _).
  destruct (trace_and_walk_hold_the_kept_steps
              unit flat_quality flat_generated (const_log_p (-1)) (fun r => r) 1
              (sampler (1 / 2) 50 4 false) tt steady_draws st evs Hrun)
    as (self' & H1 & _ & H3 & _ & H5).
  exists st, evs, self'. split; [exact H1|]. split; [exact H3|].
  apply H5.
  - cbn; lia.
  - rewrite burn_threshold_of_half. cbn; lia.
Defined.

Lemma all_rejected_returns_the_initial_reward_witness :
  exists st evs,
    walk_run unit flat_quality flat_generated linear_log_p (fun r => r) 1
             (sampler (1 / 2) 0 3 false) tt strict_draws = Ret (st, evs) /\
    initialize_reward (fun r => r) 1 (sampler (1 / 2) 0 3 false)
                      (init_picks strict_draws) = Ret (r_mean st).
Proof.
  destruct (strict_run 0 3) as (st & evs & Hrun & Hrej).
  exists st, evs. split; [exact Hrun|].
  exact (proj1 (all_rejected_returns_the_initial_reward
                  unit flat_quality flat_generated linear_log_p (fun r => r) 1
                  (sampler (1 / 2) 0 3 false) tt strict_draws st evs Hrun Hrej)).
Defined.

Lemma single_step_returns_proposal_or_initial_reward_witness :
  exists st ev r0,
    walk_run unit flat_quality flat_generated (const_log_p (-1)) (fun r => r) 1
             (sampler (1 / 2) 0 1 false) tt steady_draws = Ret (st, [ev]) /\
    r_mean st = (if ev_accepted ev then ev_r_new ev else r0).
Proof.
  destruct (steady_run 0 1) as (st & evs & Hrun & _).
  destruct (single_step_returns_proposal_or_initial_reward
              unit flat_quality flat_generated (const_log_p (-1)) (fun r => r) 1
              (sampler (1 / 2) 0 1 false) tt steady_draws st evs eq_refl Hrun)
    as (r0 & ev & _ & Hevs & _ & _ & Hres).
  exists st, ev, r0. rewrite <- Hevs. split; [exact Hrun | exact Hres].
Defined.

Lemma find_next_reward_stays_in_unit_box_witness :
  exists res self',
    find_next_reward unit flat_quality flat_generated (const_log_p (-1))
                     (fun r => r) 1 (sampler (1 / 2) 0 3 false) tt steady_draws
    = Ret (res, self') /\
    in_box res.
Proof.
  destruct (steady_find_next_reward 0 3) as (res & self' & H).
  exists res, self'. split; [exact H|].
  assert (Hr : 0 < _rmax (sampler (1 / 2) 0 3 false) <= 1) by (cbn; lra).
  assert (Hd : 0 < _delta (sampler (1 / 2) 0 3 false)) by (cbn; lra).
  exact (proj1 (find_next_reward_stays_in_unit_box
                  unit flat_quality flat_generated (const_log_p (-1)) (fun r => r) 1
                  (sampler (1 / 2) 0 3 false) tt steady_draws res self'
                  Hr Hd eq_refl H)).
Defined.

Lemma no_expert_quality_raises_value_error_witness :
  _policy_walk unit (fun _ => []) flat_generated (const_log_p (-1)) (fun r => r) 1
               (sampler (1 / 2) 0 3 false) tt strict_draws
  = Raise ValueError.
Proof.
  destruct (initial_grid_point 0 3) as (x & Hinit & Hx).
  assert (Hp : propose {| dim := length [x]; delta := _delta (sampler (1 / 2) 0 3 false);
                          bounded := true |}
                 [x] (step_draws strict_draws 1) = Ret [x + 1 / 2]).
  { unfold propose. cbn [strict_draws step_draws length sampler _delta].
    rewrite (resample_hit _ _ _ _ x); cbn; try lia; try reflexivity.
    intros _; lra. }
  assert (HN : (1 <= _mcmc_iter (sampler (1 / 2) 0 3 false))%Z) by (cbn; lia).
  exact (no_expert_quality_raises_value_error
           unit (fun _ => []) flat_generated (const_log_p (-1)) (fun r => r) 1
           (sampler (1 / 2) 0 3 false) tt strict_draws [x] [x + 1 / 2]
           Hinit eq_refl HN Hp).
Defined.

Lemma no_iterations_returns_the_initial_reward_witness :
  exists r0 self',
    _policy_walk unit flat_quality flat_generated (const_log_p (-1)) (fun r => r) 1
                 (sampler (1 / 2) 0 0 false) tt strict_draws = Ret (r0, self') /\
    iter_rewards (data self') = [r0] /\ trace (data self') = [].
Proof.
  destruct (initial_grid_point 0 0) as (x & Hinit & _).
  assert (HN : (_mcmc_iter (sampler (1 / 2) 0 0 false) <= 0)%Z) by (cbn; lia).
  destruct (no_iterations_returns_the_initial_reward
              unit flat_quality flat_generated (const_log_p (-1)) (fun r => r) 1
              (sampler (1 / 2) 0 0 false) tt strict_draws [x] HN Hinit)
    as (self' & H1 & H2 & H3 & _).
  exists [x], self'. split; [exact H1|]. split; [exact H2 | exact H3].
Defined.

Lemma default_burn_discards_nothing_witness :
  exists res self',
    _policy_walk unit flat_quality flat_generated (const_log_p (-1)) (fun r => r) 1
                 (sampler (1 / 2) (2 / 10) 3 false) tt steady_draws
    = Ret (res, self') /\
    length (trace (data self')) = 3%nat.
Proof.
  destruct (steady_run (2 / 10) 3) as (st & evs & Hrun & _).
  pose proof (policy_walk_result _ _ _ _ _ _ _ _ _ _ _ Hrun) as Hpw.
  eexists. eexists. split; [exact Hpw|].
  assert (HN : (0 <= _mcmc_iter (sampler (1 / 2) (2 / 10) 3 false) < 500)%Z)
    by (cbn; lia).
  destruct (default_burn_discards_nothing
              unit flat_quality flat_generated (const_log_p (-1)) (fun r => r) 1
              (sampler (1 / 2) (2 / 10) 3 false) tt steady_draws _ _
              eq_refl HN Hpw)
    as (_ & Ht & _).
  exact Ht.
Defined.

(** * The acceptance test *)

(** X20: a ratio of at least 1, and also a ratio that is +inf or nan, is
    accepted at every step for every uniform draw [u < 1], with or without
    cooling; without cooling a ratio that is zero, negative or -inf is
    rejected for every draw [u >= 0]. *)
Theorem acceptance_test_extremes
  (self : TBIRLPolicyWalk) (ratio : npfloat) (step : Z) (u : R) :
  ((ratio = NaN \/ ratio = Inf true \/ exists x, ratio = Fin x /\ 1 <= x) ->
   u < 1 -> np_gt (accept_probability self ratio step) u = true) /\
  ((ratio = Inf false \/ exists x, ratio = Fin x /\ x <= 0) ->
   _tempered self = false -> 0 <= u ->
   np_gt (accept_probability self ratio step) u = false).
Proof.
  split.
  - intros Hratio Hu.
    assert (Hmin : min1 ratio = Fin 1).
    { destruct Hratio as [-> | [-> | (x & -> & Hx)]]; auto.
      unfold min1. now rewrite (proj2 (Rltb_false x 1)) by lra. }
    unfold accept_probability. rewrite Hmin.
    destruct (_tempered self); cbn [np_gt].
    + unfold np_pow. destruct (Req_dec_T (_cooling step) 0); cbn [np_gt].
      * apply Rltb_true; lra.
      * rewrite (proj2 (Rltb_true 0 1)) by lra. cbn [np_gt].
        rewrite Rpower_one. apply Rltb_true; lra.
    + apply Rltb_true; lra.
  - intros Hratio Ht Hu. unfold accept_probability. rewrite Ht.
    destruct Hratio as [-> | (x & -> & Hx)]; cbn [min1 np_gt]; auto.
    rewrite (proj2 (Rltb_true x 1)) by lra. cbn [np_gt].
    apply Rltb_false; lra.
Qed.

Lemma acceptance_test_extremes_witness :
  np_gt (accept_probability (sampler (1 / 2) 0 3 true) NaN 1) (1 / 2) = true.
Proof.
  apply (acceptance_test_extremes (sampler (1 / 2) 0 3 true) NaN 1 (1 / 2)).
  - left; reflexivity.
  - lra.
Defined.

Lemma proposal_errors_witness :
  propose {| dim := 0; delta := 1 / 2; bounded := true |} [0]
          [{| up_sign := true; pick := 0 |}]
  = Raise ValueError.
Proof.
  apply (proposal_errors {| dim := 0; delta := 1 / 2; bounded := true |} [0]).
  reflexivity.
Defined.

Lemma initialize_reward_errors_witness :
  initialize_reward (fun r => r) 1 (sampler 0 0 3 false) (fun _ => 0%nat)
  = Raise ZeroDivisionError.
Proof.
  apply (initialize_reward_errors (fun r => r) 1 (sampler 0 0 3 false)
                                  (fun _ => 0%nat)).
  reflexivity.
Defined.

(** * When a call returns *)

(** With [0 < dim <= len(loc)] the loop returns exactly when it is
    unbounded and gets a draw, or is bounded and gets a passing draw. *)
Lemma resample_returns_fit P loc draws :
  (0 < dim P <= length loc)%nat ->
  (returns (resample P loc draws) <->
   (bounded P = false /\ draws <> []) \/
   (bounded P = true /\ existsb (passes P loc) draws = true)).
Proof.
  intros Hd. induction draws as [|dr rest IH].
  - cbn. split.
    + intros [v Hv]; discriminate.
    + intros [[_ H] | [_ H]]; [congruence | discriminate].
  - assert (Hi : (pick dr mod dim P < length loc)%nat).
    { pose proof (Nat.mod_upper_bound (pick dr) (dim P)). lia. }
    destruct (nth_error loc (pick dr mod dim P)) as [x|] eqn:Hx;
      [|apply nth_error_None in Hx; lia].
    destruct (bounded P) eqn:Hb.
    + destruct (passes P loc dr) eqn:Hp.
      * split.
        -- intros _. right. split; auto. cbn [existsb]. now rewrite Hp.
        -- intros _. exists (set_nth (pick dr mod dim P) (x + step_of P dr) loc).
           apply resample_hit; auto; [lia|].
           intros _. unfold passes in Hp. rewrite Hx in Hp.
           now apply in_unit_true.
      * rewrite resample_miss by (auto; lia).
        cbn [existsb]. rewrite Hp, orb_false_l.
        rewrite IH. split.
        -- intros [[C _] | H]; [discriminate | now right].
        -- intros [[C _] | H]; [discriminate | now right].
    + split.
      * intros _. left. split; [reflexivity | discriminate].
      * intros _. exists (set_nth (pick dr mod dim P) (x + step_of P dr) loc).
        apply resample_hit; auto; [lia|]. rewrite Hb. discriminate.
Qed.

(** C8 (amended): for [delta <> 0] and [0 < dim <= len(loc)], a call returns
    exactly when it is unbounded and makes a draw, or is bounded and makes a
    draw that passes the bound test; and every call that returns hands back
    a newly allocated array, leaves every array that existed before, the
    argument included, unmodified, and its result equals the argument except
    at one position, where it differs by exactly [+delta] or [-delta]. *)
Theorem call_returns_a_fresh_perturbed_copy_when_a_draw_passes
  (P : PolicyWalkProposal) (h : store) (loc : nat) (draws : list draw) :
  delta P <> 0 ->
  (0 < dim P <= length (nth loc h []))%nat ->
  (returns (__call__ P h loc draws) <->
   (bounded P = false /\ draws <> []) \/
   (bounded P = true /\ existsb (passes P (nth loc h [])) draws = true)) /\
  (forall h' a,
     __call__ P h loc draws = Ret (h', a) ->
     a = length h /\ length h' = S (length h) /\
     (forall b, (b < length h)%nat -> nth b h' [] = nth b h []) /\
     exists i d,
       (d = delta P \/ d = - delta P) /\
       (i < length (nth loc h []))%nat /\
       length (nth a h' []) = length (nth loc h []) /\
       nth i (nth a h' []) 0 <> nth i (nth loc h []) 0 /\
       forall j, nth j (nth a h' []) 0
                 = if Nat.eqb j i then nth j (nth loc h []) 0 + d
                   else nth j (nth loc h []) 0).
Proof.
  intros Hdelta Hd. split.
  - rewrite <- (resample_returns_fit P (nth loc h []) draws Hd).
    rewrite call_propose. unfold propose, returns.
    destruct (resample P (nth loc h []) draws) as [w| |]; cbn [bind]; split;
      intros [v Hv]; try discriminate; eexists; reflexivity.
  - intros h' a H.
    exact (call_perturbs_one_component_of_a_fresh_copy P h h' loc a draws Hdelta H).
Qed.

Lemma call_returns_a_fresh_perturbed_copy_when_a_draw_passes_witness :
  returns (__call__ {| dim := 2; delta := 1 / 2; bounded := true |}
                    [[0; 0]] 0 [{| up_sign := true; pick := 1 |}]) /\
  (forall h' a,
     __call__ {| dim := 2; delta := 1 / 2; bounded := true |}
              [[0; 0]] 0 [{| up_sign := true; pick := 1 |}] = Ret (h', a) ->
     a = 1%nat /\ nth 0 h' [] = [0; 0]).
Proof.
  assert (Hdelta : delta {| dim := 2; delta := 1 / 2; bounded := true |} <> 0)
    by (simpl; lra).
  assert (Hd : Nat.lt 0 (dim {| dim := 2; delta := 1 / 2; bounded := true |}) /\
               Nat.le (dim {| dim := 2; delta := 1 / 2; bounded := true |})
                      (length (nth 0 ([[0; 0]] : store) []))) by (cbn; lia).
  destruct (call_returns_a_fresh_perturbed_copy_when_a_draw_passes
              {| dim := 2; delta := 1 / 2; bounded := true |} [[0; 0]] 0
              [{| up_sign := true; pick := 1 |}] Hdelta Hd) as (Hret & Hframe).
  split.
  - apply Hret. right. split; [reflexivity|].
    cbn [existsb]. rewrite orb_false_r.
    unfold passes; cbn. apply in_unit_true. lra.
  - intros h' a H. destruct (Hframe h' a H) as (Ha & _ & Hold & _).
    split; [exact Ha|]. apply (Hold 0%nat). cbn; lia.
Defined.

(** C8 as stated fails: a bounded call with [delta = 3/2] on the stored
    vector [[0]] returns nothing, whatever the draws; and with [delta = 0]
    the call returns a copy that differs from its argument nowhere. *)
Lemma some_calls_return_no_perturbed_vector :
  ~ (exists draws,
       returns (__call__ {| dim := 1; delta := 3 / 2; bounded := true |}
                         [[0]] 0 draws)) /\
  __call__ {| dim := 1; delta := 0; bounded := true |} [[0]] 0
           [{| up_sign := true; pick := 0 |}]
  = Ret ([[0]; [0 + 0]], 1%nat) /\
  0 + 0 = 0.
Proof.
  split; [|split; [|lra]].
  - intros [draws [v Hv]]. rewrite call_propose in Hv. cbn [nth] in Hv.
    assert (Hs : propose {| dim := 1; delta := 3 / 2; bounded := true |} [0] draws
                 = Spin).
    { apply resample_spin; try reflexivity; try discriminate.
      clear. induction draws as [|dr rest IH]; auto.
      cbn [existsb]. rewrite IH, orb_false_r.
      unfold passes; cbn [dim]. rewrite Nat.mod_1_r. cbn [nth_error].
      apply in_unit_false. unfold step_of; cbn [delta].
      destruct (up_sign dr); lra. }
    rewrite Hs in Hv. discriminate.
  - rewrite call_propose. unfold propose. cbn [nth].
    rewrite (resample_hit _ _ _ _ 0); cbn; try lia; try reflexivity.
    intros _; lra.
Qed.
